(** * Transcription front end: the AssemblyAI client and the workflow controller

    A shallow embedding of [src/types.ts], [src/services/assemblyai.ts] and
    the state logic of [src/App.tsx].

    - The three client functions are asynchronous: each either throws before
      touching the network, or issues exactly one [fetch] and later maps the
      settled outcome to a value or a thrown [Error].  A call is therefore a
      value of [client_call]: [Rejected e] or [Requested req k].
    - The React component is a record of its [useState] cells plus the
      mutable [pollingIntervalRef]; the browser around it (interval timers,
      requests in flight, the console, local storage, the clipboard) is the
      rest of [World].  Every handler is a function [World -> World]; an
      [async] handler is cut at its [await]s, the code after an [await]
      running when the awaited request settles.
    - Handlers are modelled as callable in any state: the [disabled]
      attributes of the JSX, which keep the user from some of these calls,
      are not part of the model.  Left out as well: the DOM value of the
      file input that [resetState] and [handleUrlChange] blank, and the
      unmount effect (after it no handler runs). *)

From Stdlib Require Import String Ascii List Bool Arith PArith Lia.
From Stdlib Require Import DecimalString.
Import ListNotations.
Local Open Scope string_scope.

(* ------------------------------------------------------------------ *)
(** ** JavaScript values used by the code *)

(** Truthiness of a string: only the empty string is falsy. *)
Definition truthy (s : string) : bool :=
  match s with
  | EmptyString => false
  | String _ _ => true
  end.

(** Truthiness of an optional string ([undefined]/[null] or a string). *)
Definition truthy_opt (o : option string) : bool :=
  match o with
  | Some s => truthy s
  | None => false
  end.

(** [o || fallback] on an optional string. *)
Definition or_else (o : option string) (fallback : string) : string :=
  match o with
  | Some s => if truthy s then s else fallback
  | None => fallback
  end.

(** [`${o}`] on an optional string: [undefined] prints as its name. *)
Definition template_opt (o : option string) : string :=
  match o with
  | Some s => s
  | None => "undefined"
  end.

(** [`${n}`] on a non-negative integer. *)
Definition string_of_nat (n : nat) : string :=
  NilEmpty.string_of_uint (Nat.to_uint n).

(** A thrown value.  Everything the modelled code throws is an [Error]
    ([Error], [TypeError], [SyntaxError]); [NotAnError] stands for any other
    thrown value, which [err instanceof Error] tells apart. *)
Inductive thrown : Type :=
  | ErrorObj (message : string)
  | NotAnError.

Inductive result (A : Type) : Type :=
  | Resolved (a : A)
  | Threw (e : thrown).
Arguments Resolved {A} a.
Arguments Threw {A} e.

(** [msg] contains [part] as a contiguous piece. *)
Definition Carries (msg part : string) : Prop :=
  exists pre suf, msg = pre ++ part ++ suf.

Fixpoint contains (part msg : string) : bool :=
  String.prefix part msg ||
  match msg with
  | EmptyString => false
  | String _ rest => contains part rest
  end.

(* ------------------------------------------------------------------ *)
(** ** src/types.ts *)

Module TranscriptStatus.
Inductive t : Type :=
  | queued
  | processing
  | completed
  | error.
End TranscriptStatus.

(** [Transcript]; the fields [status] and [error] are [t_status] and
    [t_error] here, the controller having cells of the same names. *)
Record Transcript : Type := mkTranscript {
  id : string;
  audio_url : string;
  t_status : TranscriptStatus.t;
  text : option string;
  t_error : option string
}.

Record TranscriptParams : Type := mkParams {
  p_audio_url : string;
  p_language_code : option string
}.

(** A browser [File]: a name and its content. *)
Record File : Type := mkFile {
  file_name : string;
  file_content : string
}.

(* ------------------------------------------------------------------ *)
(** ** src/services/assemblyai.ts *)

Definition API_BASE_URL : string := "https://api.assemblyai.com/v2".

Inductive http_method : Type := GET | POST.

Inductive request_body : Type :=
  | NoBody
  | FileBody (f : File)
  | JsonBody (p : TranscriptParams).   (* JSON.stringify(body) *)

Record http_request : Type := mkRequest {
  req_url : string;
  req_method : http_method;
  req_body : request_body;
  req_headers : list (string * string)
}.

(** What [response.json()] gives: the parsed value, or a rejection with a
    [SyntaxError] when the body is not JSON. *)
Inductive json_of (A : Type) : Type :=
  | Json (a : A)
  | BadJson (syntax_error : string).
Arguments Json {A} a.
Arguments BadJson {A} syntax_error.

(** How a [fetch] settles.  The payload of a response read on the success
    path has the type the endpoint declares ([A]); the body read on the
    failure path is the service's error object [{ error?: string }]. *)
Inductive fetch_outcome (A : Type) : Type :=
  | NetworkFailure (type_error : string)           (* fetch() rejects *)
  | HttpError (status : nat) (statusText : string)
              (errorData : json_of (option string)) (* response.ok = false *)
  | HttpOk (data : json_of A).                      (* response.ok = true *)
Arguments NetworkFailure {A} type_error.
Arguments HttpError {A} status statusText errorData.
Arguments HttpOk {A} data.

(** An asynchronous client call: it throws before any request, or issues one
    request and continues with [k] once the request settles. *)
Inductive client_call (A : Type) : Type :=
  | Rejected (e : thrown)
  | Requested (req : http_request) (k : fetch_outcome A -> result A).
Arguments Rejected {A} e.
Arguments Requested {A} req k.


Definition uploadFile_response (o : fetch_outcome string) : result string :=
  match o with
  | NetworkFailure m => Threw (ErrorObj m)
  | HttpError status statusText errorData =>
      match errorData with
      | BadJson m => Threw (ErrorObj m)
      | Json err =>
          Threw (ErrorObj ("API Error while uploading: " ++ string_of_nat status
                           ++ " " ++ statusText ++ " - "
                           ++ or_else err "Unknown upload error"))
      end
  | HttpOk data =>
      match data with
      | BadJson m => Threw (ErrorObj m)
      | Json upload_url => Resolved upload_url
      end
  end.

Definition uploadFile (file : File) (apiKey : string) : client_call string :=
  if negb (truthy apiKey)
  then Rejected (ErrorObj "A chave da API é necessária para o upload.")
  else Requested
         (mkRequest (API_BASE_URL ++ "/upload") POST (FileBody file)
                    [("authorization", apiKey)])
         uploadFile_response.

(** The part shared by [submitForTranscription] and
    [getTranscriptionResult] after their [fetch]. *)
Definition transcript_response (o : fetch_outcome Transcript)
  : result Transcript :=
  match o with
  | NetworkFailure m => Threw (ErrorObj m)
  | HttpError status statusText errorData =>
      match errorData with
      | BadJson m => Threw (ErrorObj m)
      | Json err =>
          Threw (ErrorObj ("API Error: " ++ string_of_nat status ++ " "
                           ++ statusText ++ " - " ++ template_opt err))
      end
  | HttpOk data =>
      match data with
      | BadJson m => Threw (ErrorObj m)
      | Json t => Resolved t
      end
  end.

Definition submitForTranscription (audioUrl apiKey : string)
  : client_call Transcript :=
  if negb (truthy apiKey)
  then Rejected (ErrorObj "A chave da API é necessária para a transcrição.")
  else Requested
         (mkRequest (API_BASE_URL ++ "/transcript") POST
                    (JsonBody (mkParams audioUrl (Some "pt")))
                    [("authorization", apiKey);
                     ("content-type", "application/json")])
         transcript_response.

Definition getTranscriptionResult (job apiKey : string)
  : client_call Transcript :=
  if negb (truthy apiKey)
  then Rejected (ErrorObj "A chave da API é necessária para obter o resultado.")
  else Requested
         (mkRequest (API_BASE_URL ++ "/transcript/" ++ job) GET NoBody
                    [("authorization", apiKey);
                     ("content-type", "application/json")])
         transcript_response.

(* ------------------------------------------------------------------ *)
(** ** src/App.tsx: the component's state *)

Module Status.
Inductive t : Type :=
  | idle
  | uploading
  | submitting
  | polling
  | completed
  | error.
End Status.

(** [['uploading', 'submitting', 'polling'].includes(status)] *)
Definition isProcessing (s : Status.t) : bool :=
  match s with
  | Status.uploading | Status.submitting | Status.polling => true
  | _ => false
  end.

(** The seven [useState] cells. *)
Record Ctrl : Type := mkCtrl {
  apiKey : string;
  audioUrl : string;
  selectedFile : option File;
  transcript : option Transcript;
  status : Status.t;
  error : option string;
  isCopied : bool
}.

(** Where an [async] function is suspended, with what its continuation
    closes over. *)
Inductive Suspended : Type :=
  | AwaitUpload (k : fetch_outcome string -> result string)
                (key : string)                    (* handleSubmit, line 105 *)
  | AwaitSubmit (k : fetch_outcome Transcript -> result Transcript)
                (key : string)                    (* handleSubmit, line 109 *)
  | AwaitResult (k : fetch_outcome Transcript -> result Transcript).
                                                  (* interval callback, line 61 *)

(** The component in its browser.  Timer handles are positive, as
    [window.setInterval] returns them, so a handle in the ref is always
    truthy.  [intervals] holds the running interval timers with the
    [(id, apiKey)] their callback closes over; [wire] the requests issued,
    latest first; [status_trace] every argument given to [setStatus],
    latest first. *)
Record World : Type := mkWorld {
  ui : Ctrl;
  pollingIntervalRef : option positive;
  intervals : list (positive * (string * string));
  next_handle : positive;
  in_flight : list (nat * Suspended);
  next_request : nat;
  wire : list http_request;
  console : list thrown;
  localStorage : option string;
  clipboard : option string;
  copy_timeouts : nat;
  status_trace : list Status.t
}.

Definition action : Type := World -> World.

Definition and_then (a b : action) : action := fun w => b (a w).
Notation "a ;; b" := (and_then a b) (at level 61, right associativity).

Definition skip : action := fun w => w.

Definition with_ui (f : Ctrl -> Ctrl) : action := fun w =>
  mkWorld (f (ui w)) (pollingIntervalRef w) (intervals w) (next_handle w)
          (in_flight w) (next_request w) (wire w) (console w)
          (localStorage w) (clipboard w) (copy_timeouts w) (status_trace w).

Definition setApiKey (v : string) : action :=
  with_ui (fun c => mkCtrl v (audioUrl c) (selectedFile c) (transcript c)
                           (status c) (error c) (isCopied c)).
Definition setAudioUrl (v : string) : action :=
  with_ui (fun c => mkCtrl (apiKey c) v (selectedFile c) (transcript c)
                           (status c) (error c) (isCopied c)).
Definition setSelectedFile (v : option File) : action :=
  with_ui (fun c => mkCtrl (apiKey c) (audioUrl c) v (transcript c)
                           (status c) (error c) (isCopied c)).
Definition setTranscript (v : option Transcript) : action :=
  with_ui (fun c => mkCtrl (apiKey c) (audioUrl c) (selectedFile c) v
                           (status c) (error c) (isCopied c)).
Definition setError (v : option string) : action :=
  with_ui (fun c => mkCtrl (apiKey c) (audioUrl c) (selectedFile c)
                           (transcript c) (status c) v (isCopied c)).
Definition setIsCopied (v : bool) : action :=
  with_ui (fun c => mkCtrl (apiKey c) (audioUrl c) (selectedFile c)
                           (transcript c) (status c) (error c) v).

Definition setStatus (v : Status.t) : action := fun w =>
  mkWorld (mkCtrl (apiKey (ui w)) (audioUrl (ui w)) (selectedFile (ui w))
                  (transcript (ui w)) v (error (ui w)) (isCopied (ui w)))
          (pollingIntervalRef w) (intervals w) (next_handle w)
          (in_flight w) (next_request w) (wire w) (console w)
          (localStorage w) (clipboard w) (copy_timeouts w)
          (v :: status_trace w).

Definition set_ref (r : option positive) : action := fun w =>
  mkWorld (ui w) r (intervals w) (next_handle w)
          (in_flight w) (next_request w) (wire w) (console w)
          (localStorage w) (clipboard w) (copy_timeouts w) (status_trace w).

Definition set_intervals (l : list (positive * (string * string))) : action :=
  fun w =>
  mkWorld (ui w) (pollingIntervalRef w) l (next_handle w)
          (in_flight w) (next_request w) (wire w) (console w)
          (localStorage w) (clipboard w) (copy_timeouts w) (status_trace w).

(** [clearInterval(h)] *)
Definition clearInterval (h : positive) : action := fun w =>
  set_intervals
    (filter (fun e => negb (Pos.eqb (fst e) h)) (intervals w)) w.

(** [pollingIntervalRef.current = window.setInterval(callback, 5000)], the
    callback closing over [job] and [key]. *)
Definition setInterval_into_ref (job key : string) : action := fun w =>
  mkWorld (ui w) (Some (next_handle w))
          ((next_handle w, (job, key)) :: intervals w)
          (Pos.succ (next_handle w))
          (in_flight w) (next_request w) (wire w) (console w)
          (localStorage w) (clipboard w) (copy_timeouts w) (status_trace w).

(** [console.error(err)] *)
Definition console_error (e : thrown) : action := fun w =>
  mkWorld (ui w) (pollingIntervalRef w) (intervals w) (next_handle w)
          (in_flight w) (next_request w) (wire w) (e :: console w)
          (localStorage w) (clipboard w) (copy_timeouts w) (status_trace w).

(** The [useEffect] on [apiKey]: keep local storage in step with the key. *)
Definition persist_key : action := fun w =>
  mkWorld (ui w) (pollingIntervalRef w) (intervals w) (next_handle w)
          (in_flight w) (next_request w) (wire w) (console w)
          (if truthy (apiKey (ui w)) then Some (apiKey (ui w)) else None)
          (clipboard w) (copy_timeouts w) (status_trace w).

(** A call reaches its [fetch]: the request goes on the wire and the caller
    is parked until it settles. *)
Definition suspend (req : http_request) (s : Suspended) : action := fun w =>
  mkWorld (ui w) (pollingIntervalRef w) (intervals w) (next_handle w)
          ((next_request w, s) :: in_flight w) (S (next_request w))
          (req :: wire w) (console w)
          (localStorage w) (clipboard w) (copy_timeouts w) (status_trace w).

Definition set_in_flight (l : list (nat * Suspended)) : action := fun w =>
  mkWorld (ui w) (pollingIntervalRef w) (intervals w) (next_handle w)
          l (next_request w) (wire w) (console w)
          (localStorage w) (clipboard w) (copy_timeouts w) (status_trace w).

Definition set_clipboard (v : option string) (pending : nat) : action :=
  fun w =>
  mkWorld (ui w) (pollingIntervalRef w) (intervals w) (next_handle w)
          (in_flight w) (next_request w) (wire w) (console w)
          (localStorage w) v pending (status_trace w).

Fixpoint lookup {A : Type} (r : nat) (l : list (nat * A)) : option A :=
  match l with
  | [] => None
  | (r', a) :: rest => if Nat.eqb r r' then Some a else lookup r rest
  end.

Fixpoint lookup_handle {A : Type} (h : positive) (l : list (positive * A))
  : option A :=
  match l with
  | [] => None
  | (h', a) :: rest => if Pos.eqb h h' then Some a else lookup_handle h rest
  end.

Definition settle (r : nat) : action := fun w =>
  set_in_flight (filter (fun e => negb (Nat.eqb (fst e) r)) (in_flight w)) w.

(* ------------------------------------------------------------------ *)
(** ** src/App.tsx: the handlers *)

(** [if (pollingIntervalRef.current) { clearInterval(...); ... = null; }] *)
Definition stop_polling : action := fun w =>
  match pollingIntervalRef w with
  | Some h => (clearInterval h ;; set_ref None) w
  | None => w
  end.

Definition resetState : action :=
  setAudioUrl "" ;;
  setSelectedFile None ;;
  setTranscript None ;;
  setStatus Status.idle ;;
  setError None ;;
  setIsCopied false ;;
  stop_polling.

(** [pollTranscript(id)], as created by the render whose [apiKey] is [key]. *)
Definition pollTranscript (key job : string) : action := fun w =>
  if negb (truthy key) then w
  else
    ((fun w1 => match pollingIntervalRef w1 with
                | Some h => clearInterval h w1
                | None => w1
                end) ;;
     setInterval_into_ref job key) w.

(** The interval callback after its [await], on a fetched [result]. *)
Definition poll_then (result : Transcript) : action :=
  match t_status result with
  | TranscriptStatus.completed =>
      stop_polling ;; setTranscript (Some result) ;;
      setStatus Status.completed
  | TranscriptStatus.error =>
      stop_polling ;; setTranscript (Some result) ;;
      setStatus Status.error ;;
      setError (Some (or_else (t_error result)
                              "Falha ao processar a transcrição."))
  | TranscriptStatus.queued | TranscriptStatus.processing => skip
  end.

(** The [catch] of the interval callback. *)
Definition poll_catch (err : thrown) : action :=
  stop_polling ;;
  setStatus Status.error ;;
  setError (Some "Não foi possível obter o resultado da transcrição.") ;;
  console_error err.

(** One firing of the interval callback closing over [job] and [key], up to
    its [await]. *)
Definition poll_tick (job key : string) : action :=
  match getTranscriptionResult job key with
  | Rejected e => poll_catch e
  | Requested req k => suspend req (AwaitResult k)
  end.

(** The [catch] of [handleSubmit]. *)
Definition submit_catch (err : thrown) : action :=
  setStatus Status.error ;;
  setError (Some ("Falha ao enviar a solicitação: " ++
                  match err with
                  | ErrorObj message => message
                  | NotAnError => "Ocorreu um erro desconhecido."
                  end)) ;;
  console_error err.

(** [handleSubmit] from [setStatus('submitting')] to its second [await]. *)
Definition submit_job (transcriptionUrl key : string) : action :=
  setStatus Status.submitting ;;
  match submitForTranscription transcriptionUrl key with
  | Rejected e => submit_catch e
  | Requested req k => suspend req (AwaitSubmit k key)
  end.

(** [handleSubmit] after [submitForTranscription] resolved. *)
Definition submit_then (key : string) (initialResponse : Transcript)
  : action :=
  setTranscript (Some initialResponse) ;;
  match t_status initialResponse with
  | TranscriptStatus.error =>
      setStatus Status.error ;;
      setError (Some (or_else (t_error initialResponse)
                              "Erro ao submeter o áudio."))
  | TranscriptStatus.queued | TranscriptStatus.processing =>
      setStatus Status.polling ;;
      pollTranscript key (id initialResponse)
  | TranscriptStatus.completed =>
      setTranscript (Some initialResponse) ;;
      setStatus Status.completed
  end.

(** [handleSubmit] up to its first [await], in the render it was created
    by: it closes over that render's [apiKey], [audioUrl], [selectedFile]
    and [status]. *)
Definition handleSubmit : action := fun w =>
  let c := ui w in
  if negb (truthy (apiKey c)) then
    (setStatus Status.error ;;
     setError (Some "Por favor, insira sua chave da API AssemblyAI para continuar.")) w
  else if (negb (truthy (audioUrl c)) &&
           match selectedFile c with Some _ => false | None => true end)
          || isProcessing (status c) then w
  else
    (setError None ;;
     setTranscript None ;;
     setIsCopied false ;;
     match selectedFile c with
     | Some file =>
         setStatus Status.uploading ;;
         match uploadFile file (apiKey c) with
         | Rejected e => submit_catch e
         | Requested req k => suspend req (AwaitUpload k (apiKey c))
         end
     | None => submit_job (audioUrl c) (apiKey c)
     end) w.

Definition handleCopy : action := fun w =>
  match transcript (ui w) with
  | Some t =>
      if truthy_opt (text t)
      then (set_clipboard (text t) (S (copy_timeouts w)) ;;
            setIsCopied true) w
      else w
  | None => w
  end.

Definition handleUrlChange (value : string) : action :=
  setAudioUrl value ;;
  if truthy value then setSelectedFile None else skip.

Definition handleFileChange (file : option File) : action :=
  setSelectedFile file ;;
  match file with
  | Some _ => setAudioUrl ""
  | None => skip
  end.

(* ------------------------------------------------------------------ *)
(** ** The event loop *)

Inductive Event : Type :=
  | ApiKeyChange (value : string)      (* the key input's onChange *)
  | UrlChange (value : string)
  | FileChange (file : option File)
  | Submit
  | Reset
  | Copy
  | CopyTimeout                        (* the 2000 ms timeout of handleCopy *)
  | Tick (h : positive)                (* interval timer h fires *)
  | UploadSettles (r : nat) (o : fetch_outcome string)
  | TranscriptSettles (r : nat) (o : fetch_outcome Transcript).

Definition step (w : World) (e : Event) : World :=
  match e with
  | ApiKeyChange v => (setApiKey v ;; persist_key) w
  | UrlChange v => handleUrlChange v w
  | FileChange f => handleFileChange f w
  | Submit => handleSubmit w
  | Reset => resetState w
  | Copy => handleCopy w
  | CopyTimeout =>
      match copy_timeouts w with
      | O => w
      | S n => (set_clipboard (clipboard w) n ;; setIsCopied false) w
      end
  | Tick h =>
      match lookup_handle h (intervals w) with
      | Some (job, key) => poll_tick job key w
      | None => w
      end
  | UploadSettles r o =>
      match lookup r (in_flight w) with
      | Some (AwaitUpload k key) =>
          (settle r ;;
           match k o with
           | Resolved transcriptionUrl => submit_job transcriptionUrl key
           | Threw err => submit_catch err
           end) w
      | _ => w
      end
  | TranscriptSettles r o =>
      match lookup r (in_flight w) with
      | Some (AwaitSubmit k key) =>
          (settle r ;;
           match k o with
           | Resolved initialResponse => submit_then key initialResponse
           | Threw err => submit_catch err
           end) w
      | Some (AwaitResult k) =>
          (settle r ;;
           match k o with
           | Resolved result => poll_then result
           | Threw err => poll_catch err
           end) w
      | _ => w
      end
  end.

Definition run (w : World) (es : list Event) : World := fold_left step es w.

(** The component as mounted, local storage holding [stored]:
    [localStorage.getItem(...) || ''] seeds the key and the first run of the
    key effect brings local storage in step with it. *)
Definition mount (stored : option string) : World :=
  persist_key
    (mkWorld (mkCtrl (or_else stored "") "" None None Status.idle None false)
             None [] 1%positive [] 0 [] [] stored None 0 []).

(* ------------------------------------------------------------------ *)
(** ** Invariants of the event loop *)

(** The running interval timers are exactly what the ref names. *)
Definition single_timer (w : World) : Prop :=
  match pollingIntervalRef w with
  | None => intervals w = []
  | Some h => exists c, intervals w = [(h, c)]
  end.

(** Parked continuations are the client's own, and were parked by a render
    with a non-empty key. *)
Definition sound_suspension (s : Suspended) : Prop :=
  match s with
  | AwaitUpload k key => k = uploadFile_response /\ truthy key = true
  | AwaitSubmit k key => k = transcript_response /\ truthy key = true
  | AwaitResult k => k = transcript_response
  end.

Definition sound_in_flight (w : World) : Prop :=
  Forall (fun e => sound_suspension (snd e)) (in_flight w).

Definition keyed_intervals (w : World) : Prop :=
  Forall (fun e => truthy (snd (snd e)) = true) (intervals w).

(** Request numbers are handed out in increasing order. *)
Definition fresh_requests (w : World) : Prop :=
  Forall (fun e => fst e < next_request w) (in_flight w).

Definition Inv (w : World) : Prop :=
  single_timer w /\ sound_in_flight w /\ keyed_intervals w
  /\ fresh_requests w.

(** Worlds the event loop can be in. *)
Definition reachable (w : World) : Prop :=
  exists stored es, w = run (mount stored) es.

(** The URL and the file are not both populated. *)
Definition exclusive_source (c : Ctrl) : Prop :=
  audioUrl c = "" \/ selectedFile c = None.

(** A user's edit of the form. *)
Definition is_input (e : Event) : bool :=
  match e with
  | ApiKeyChange _ | UrlChange _ | FileChange _ => true
  | _ => false
  end.

(** A whole submission with nothing interleaved, [r] being the number the
    next request gets: the submit, the settling of the upload it issued (if
    it issued one) and the settling of the job creation.  A settling event
    for a request that is not parked in that place does nothing, so with a
    file the creation is request [S r], without one it is request [r]. *)
Definition submission (r : nat) (uo : fetch_outcome string)
    (co : fetch_outcome Transcript) : list Event :=
  [Submit; UploadSettles r uo; TranscriptSettles r co;
   TranscriptSettles (S r) co].

(** What each running timer polls, handles forgotten. *)
Definition polls (w : World) : list (string * string) :=
  map snd (intervals w).

(** The error shown to the user carries the service's status code and
    message. *)
Definition shows_service_error (w : World) (code : nat) (message : string)
  : Prop :=
  exists m, error (ui w) = Some m
            /\ Carries m (string_of_nat code) /\ Carries m message.

(** A submission that starts cancels the timers that were running. *)
Definition submit_cancels_timers (w : World) : Prop :=
  forall t, In t (intervals w) -> ~ In t (intervals (step w Submit)).

Definition job_queued : Transcript :=
  mkTranscript "t1" "https://x/a.mp3" TranscriptStatus.queued None None.

Definition job_done : Transcript :=
  mkTranscript "t2" "https://x/a.mp3" TranscriptStatus.completed
               (Some "hello") None.

Definition job_failed : Transcript :=
  mkTranscript "t1" "https://x/a.mp3" TranscriptStatus.error None
               (Some "Download error, file not found").

(** Key [k1], a URL, a submission answered [queued]: the poll is on. *)
Definition polling_world : World :=
  run (mount (Some "k1"))
      [UrlChange "https://x/a.mp3"; Submit;
       TranscriptSettles 0 (HttpOk (Json job_queued))].

(** The same with one tick of the timer fired and its request in flight. *)
Definition ticked_world : World := step polling_world (Tick 1%positive).

(** The poll of [ticked_world] answered with a completed job. *)
Definition completed_world : World :=
  step ticked_world (TranscriptSettles 1 (HttpOk (Json job_done))).

(** While the poll is on the key is emptied, a submit is refused for it, and
    the key is typed again: the error state, the timer still running. *)
Definition refused_world : World :=
  run polling_world [ApiKeyChange ""; Submit; ApiKeyChange "k1"].

(** An action that leaves timers, the ref and the parked requests alone. *)
Definition quiet (a : action) : Prop :=
  forall w, pollingIntervalRef (a w) = pollingIntervalRef w
            /\ intervals (a w) = intervals w
            /\ in_flight (a w) = in_flight w
            /\ next_request (a w) = next_request w.

(** An action that keeps [Inv]. *)
Definition keeps (a : action) : Prop := forall w, Inv w -> Inv (a w).

(** An action that leaves the URL and the file cells alone. *)
Definition keeps_source (a : action) : Prop :=
  forall w, audioUrl (ui (a w)) = audioUrl (ui w)
            /\ selectedFile (ui (a w)) = selectedFile (ui w).

(** Two worlds that show the same cells and poll the same jobs, whose logs
    differ by what was there before ([Wa], [Sa] and [Wb], [Sb]) and whose
    requests numbered from [ra] on in the one are those numbered from [rb]
    on in the other. *)
Definition alike (ra rb : nat) (Wa Wb : list http_request)
    (Sa Sb : list Status.t) (a b : World) : Prop :=
  ui a = ui b
  /\ polls a = polls b
  /\ single_timer a /\ single_timer b
  /\ (exists new, wire a = (new ++ Wa)%list /\ wire b = (new ++ Wb)%list)
  /\ (exists new, status_trace a = (new ++ Sa)%list
                  /\ status_trace b = (new ++ Sb)%list)
  /\ (exists d, next_request a = ra + d /\ next_request b = rb + d)
  /\ (forall d, lookup (ra + d) (in_flight a) = lookup (rb + d) (in_flight b)).

(** The same event in both worlds, request numbers shifted. *)
Inductive paired (ra rb : nat) : Event -> Event -> Prop :=
  | paired_key v : paired ra rb (ApiKeyChange v) (ApiKeyChange v)
  | paired_url v : paired ra rb (UrlChange v) (UrlChange v)
  | paired_file f : paired ra rb (FileChange f) (FileChange f)
  | paired_submit : paired ra rb Submit Submit
  | paired_reset : paired ra rb Reset Reset
  | paired_upload d o :
      paired ra rb (UploadSettles (ra + d) o) (UploadSettles (rb + d) o)
  | paired_transcript d o :
      paired ra rb (TranscriptSettles (ra + d) o)
                   (TranscriptSettles (rb + d) o).

(** Two actions that take alike worlds to alike worlds. *)
Definition alike2 (ra rb : nat) (Wa Wb : list http_request)
    (Sa Sb : list Status.t) (f g : action) : Prop :=
  forall a b, alike ra rb Wa Wb Sa Sb a b ->
              alike ra rb Wa Wb Sa Sb (f a) (g b).

(* ------------------------------------------------------------------ *)
(** ** src/App.tsx: what the render derives from the state *)

Definition statusMessages (s : Status.t) : string :=
  match s with
  | Status.idle =>
      "Forneça uma URL ou carregue um arquivo de áudio para iniciar."
  | Status.uploading => "Enviando arquivo..."
  | Status.submitting => "Enviando áudio para processamento..."
  | Status.polling => "Transcrição em andamento. Aguarde..."
  | Status.completed => "Transcrição concluída com sucesso!"
  | Status.error => "Ocorreu um erro."
  end.

(** [!!selectedFile] *)
Definition has_file (c : Ctrl) : bool :=
  match selectedFile c with
  | Some _ => true
  | None => false
  end.

Definition isFormDisabled (c : Ctrl) : bool :=
  negb (truthy (apiKey c)) || isProcessing (status c).

Definition isReadyToSubmit (c : Ctrl) : bool :=
  (truthy (audioUrl c) || has_file c) && truthy (apiKey c).

(** [disabled] of the submit button. *)
Definition submit_disabled (c : Ctrl) : bool :=
  negb (isReadyToSubmit c) || isProcessing (status c).

(** The text in the result panel: the status line outside [completed] and
    [error], the error or the generic line in [error], the transcript's
    text (when there is a non-empty one) in [completed]. *)
Definition result_panel (c : Ctrl) : option string :=
  match status c with
  | Status.error => Some (or_else (error c) (statusMessages Status.error))
  | Status.completed =>
      match transcript c with
      | Some t => if truthy_opt (text t) then text t else None
      | None => None
      end
  | s => Some (statusMessages s)
  end.

(** [disabled] of the URL input and of the file input. *)
Definition url_input_disabled (c : Ctrl) : bool :=
  isFormDisabled c || has_file c.

Definition file_input_disabled (c : Ctrl) : bool :=
  isFormDisabled c || truthy (audioUrl c).

(** The cleanup of the mount effect: the timer in the ref is cleared, the
    ref itself is left as it is. *)
Definition unmount : action := fun w =>
  match pollingIntervalRef w with
  | Some h => clearInterval h w
  | None => w
  end.

(** ** Further invariants of the event loop *)

(** Local storage holds the key exactly when the key is not empty. *)
Definition key_persisted (w : World) : Prop :=
  localStorage w
  = if truthy (apiKey (ui w)) then Some (apiKey (ui w)) else None.

(** A request as the service expects it: it carries a non-empty key in its
    [authorization] header, it goes to the service, and a JSON body asks
    for Portuguese. *)
Definition sound_request (req : http_request) : Prop :=
  (exists key, truthy key = true
               /\ In ("authorization", key) (req_headers req))
  /\ (exists path, req_url req = API_BASE_URL ++ path)
  /\ match req_body req with
     | JsonBody p => p_language_code p = Some "pt"
     | _ => True
     end.

Definition sound_wire (w : World) : Prop := Forall sound_request (wire w).

(** The first job and a second one, as the service reports them. *)
Definition first_job_done : Transcript :=
  mkTranscript "t1" "https://x/a.mp3" TranscriptStatus.completed
               (Some "first") None.

Definition second_job_queued : Transcript :=
  mkTranscript "t3" "https://x/b.mp3" TranscriptStatus.queued None None.

(** Two polls of the first job in flight (requests 1 and 2), the first
    answered completed: the controller shows [completed] and offers the
    reset, the second poll is still in flight. *)
Definition overlapped_world : World :=
  run ticked_world
      [Tick 1%positive; TranscriptSettles 1 (HttpOk (Json first_job_done))].

(** The answer to a request issued before request [n]. *)
Definition late_answer (n : nat) (e : Event) : bool :=
  match e with
  | UploadSettles r _ | TranscriptSettles r _ => Nat.ltb r n
  | _ => false
  end.

(** After a reset of [w], the user's edits and a submission go through the
    same cells as in the component first mounted with the same key, also
    when answers to requests issued before the reset arrive after the
    submission (in the component first mounted there is no such request). *)
Definition resubmits_like_first (w : World) : Prop :=
  forall prep uo co late,
    forallb is_input prep = true ->
    forallb (late_answer (next_request w)) late = true ->
    let a := run (step w Reset) prep in
    let b := run (mount (Some (apiKey (ui w)))) prep in
    ui (run a (submission (next_request a) uo co ++ late))
    = ui (run b (submission (next_request b) uo co)).

(** The message of a thrown value as [handleSubmit]'s [catch] reads it. *)
Definition thrown_message (err : thrown) : string :=
  match err with
  | ErrorObj message => message
  | NotAnError => "Ocorreu um erro desconhecido."
  end.

(** Key [k1], a file chosen, the submit: the upload is in flight. *)
Definition uploading_world : World :=
  run (mount (Some "k1")) [FileChange (Some (mkFile "a.mp3" "riff")); Submit].

(** The copied mark is up only while a timeout that lowers it is pending. *)
Definition copied_expires (w : World) : Prop :=
  isCopied (ui w) = true -> 0 < copy_timeouts w.

(** What each status stands on. *)
Definition coherent (w : World) : Prop :=
  match status (ui w) with
  | Status.idle => transcript (ui w) = None /\ error (ui w) = None
  | Status.uploading =>
      transcript (ui w) = None /\ error (ui w) = None
      /\ exists r k key, lookup r (in_flight w) = Some (AwaitUpload k key)
  | Status.submitting =>
      exists r k key, lookup r (in_flight w) = Some (AwaitSubmit k key)
  | Status.polling =>
      exists h job key,
        transcript (ui w) = Some job
        /\ (t_status job = TranscriptStatus.queued
            \/ t_status job = TranscriptStatus.processing)
        /\ intervals w = [(h, (id job, key))]
        /\ pollingIntervalRef w = Some h
  | Status.completed =>
      exists job, transcript (ui w) = Some job
                  /\ t_status job = TranscriptStatus.completed
  | Status.error => exists m, error (ui w) = Some m /\ m <> ""
  end.

(* ------------------------------------------------------------------ *)
(** ** Frames and invariant preservation *)

Create HintDb loop discriminated.

Lemma quiet_with_ui f : quiet (with_ui f).
Proof. intro w; repeat split. Qed.

Lemma quiet_setStatus v : quiet (setStatus v).
Proof. intro w; repeat split. Qed.

Lemma quiet_console_error e : quiet (console_error e).
Proof. intro w; repeat split. Qed.

Lemma quiet_persist_key : quiet persist_key.
Proof. intro w; repeat split. Qed.

Lemma quiet_set_clipboard v n : quiet (set_clipboard v n).
Proof. intro w; repeat split. Qed.

Lemma quiet_skip : quiet skip.
Proof. intro w; repeat split. Qed.

Lemma quiet_and_then a b : quiet a -> quiet b -> quiet (a ;; b).
Proof.
  intros Ha Hb w. unfold and_then.
  destruct (Ha w) as (Hr & Hi & Hp & Hn).
  destruct (Hb (a w)) as (Hr' & Hi' & Hp' & Hn').
  repeat split; congruence.
Qed.

Lemma quiet_keeps a : quiet a -> keeps a.
Proof.
  intros Ha w (Ht & Hf & Hk & Hq). destruct (Ha w) as (Hr & Hi & Hp & Hn).
  unfold Inv, single_timer, sound_in_flight, keyed_intervals, fresh_requests.
  rewrite Hr, Hi, Hp, Hn. auto.
Qed.

Lemma keeps_and_then a b : keeps a -> keeps b -> keeps (a ;; b).
Proof. intros Ha Hb w Hw. apply Hb, Ha, Hw. Qed.

#[export] Hint Resolve quiet_with_ui quiet_setStatus quiet_console_error
  quiet_persist_key quiet_set_clipboard quiet_skip quiet_and_then : loop.

Lemma quiet_setters :
  (forall v, quiet (setApiKey v)) /\ (forall v, quiet (setAudioUrl v)) /\
  (forall v, quiet (setSelectedFile v)) /\ (forall v, quiet (setTranscript v)) /\
  (forall v, quiet (setError v)) /\ (forall v, quiet (setIsCopied v)).
Proof. repeat split. Qed.

Lemma quiet_setApiKey v : quiet (setApiKey v).
Proof. apply quiet_setters. Qed.
Lemma quiet_setAudioUrl v : quiet (setAudioUrl v).
Proof. apply quiet_setters. Qed.
Lemma quiet_setSelectedFile v : quiet (setSelectedFile v).
Proof. apply quiet_setters. Qed.
Lemma quiet_setTranscript v : quiet (setTranscript v).
Proof. apply quiet_setters. Qed.
Lemma quiet_setError v : quiet (setError v).
Proof. apply quiet_setters. Qed.
Lemma quiet_setIsCopied v : quiet (setIsCopied v).
Proof. apply quiet_setters. Qed.

#[export] Hint Resolve quiet_setApiKey quiet_setAudioUrl quiet_setSelectedFile
  quiet_setTranscript quiet_setError quiet_setIsCopied : loop.

Lemma Forall_filter_keep {A} (P : A -> Prop) (f : A -> bool) (l : list A) :
  Forall P l -> Forall P (filter f l).
Proof.
  induction 1 as [|x l Hx Hl IH]; simpl; [constructor|].
  destruct (f x); [constructor|]; assumption.
Qed.

Lemma lookup_Forall {A} (P : A -> Prop) r (l : list (nat * A)) a :
  lookup r l = Some a -> Forall (fun e => P (snd e)) l -> P a.
Proof.
  induction l as [|[r' a'] l IH]; simpl; [discriminate|].
  intros Hl Hf. inversion Hf; subst.
  destruct (Nat.eqb r r'); [injection Hl as <-; assumption | auto].
Qed.

Lemma lookup_handle_In {A} h (l : list (positive * A)) a :
  lookup_handle h l = Some a -> In (h, a) l.
Proof.
  induction l as [|[h' a'] l IH]; simpl; [discriminate|].
  destruct (Pos.eqb_spec h h') as [->|Hne].
  - intros [= ->]. now left.
  - intros Hl. right. auto.
Qed.

(** Stopping the poll leaves no timer running. *)
Lemma stop_polling_stops w :
  single_timer w ->
  intervals (stop_polling w) = [] /\ pollingIntervalRef (stop_polling w) = None.
Proof.
  unfold single_timer, stop_polling.
  destruct (pollingIntervalRef w) as [h|] eqn:Hr.
  - intros [c Hc]. unfold and_then, clearInterval; simpl.
    rewrite Hc; simpl. rewrite Pos.eqb_refl. auto.
  - intros ->. rewrite Hr. auto.
Qed.

Lemma stop_polling_frame w :
  in_flight (stop_polling w) = in_flight w /\ ui (stop_polling w) = ui w
  /\ wire (stop_polling w) = wire w /\ console (stop_polling w) = console w
  /\ status_trace (stop_polling w) = status_trace w
  /\ next_handle (stop_polling w) = next_handle w
  /\ next_request (stop_polling w) = next_request w.
Proof. unfold stop_polling. destruct (pollingIntervalRef w); repeat split. Qed.

Lemma keeps_stop_polling : keeps stop_polling.
Proof.
  intros w (Ht & Hf & Hk & Hq).
  destruct (stop_polling_stops w Ht) as [Hi Hr].
  destruct (stop_polling_frame w) as (Hp & _ & _ & _ & _ & _ & Hn).
  unfold Inv, single_timer, sound_in_flight, keyed_intervals, fresh_requests.
  rewrite Hr, Hi, Hp, Hn. repeat split; auto.
Qed.

(** Scheduling a poll first cancels the timer in the ref. *)
Lemma pollTranscript_intervals key job w :
  single_timer w -> truthy key = true ->
  intervals (pollTranscript key job w) = [(next_handle w, (job, key))]
  /\ pollingIntervalRef (pollTranscript key job w) = Some (next_handle w).
Proof.
  unfold single_timer, pollTranscript. intros Ht ->; simpl.
  unfold and_then, setInterval_into_ref; simpl.
  destruct (pollingIntervalRef w) as [h|].
  - destruct Ht as [c Hc]. unfold clearInterval; simpl.
    rewrite Hc; simpl. rewrite Pos.eqb_refl. auto.
  - rewrite Ht. auto.
Qed.

Lemma pollTranscript_frame key job w :
  in_flight (pollTranscript key job w) = in_flight w
  /\ ui (pollTranscript key job w) = ui w
  /\ wire (pollTranscript key job w) = wire w
  /\ status_trace (pollTranscript key job w) = status_trace w
  /\ next_request (pollTranscript key job w) = next_request w.
Proof.
  unfold pollTranscript. destruct (truthy key); simpl; [|repeat split].
  unfold and_then. destruct (pollingIntervalRef w); repeat split.
Qed.

Lemma keeps_pollTranscript key job : keeps (pollTranscript key job).
Proof.
  intros w (Ht & Hf & Hk & Hq).
  destruct (truthy key) eqn:Hkey.
  - destruct (pollTranscript_intervals key job w Ht Hkey) as [Hi Hr].
    destruct (pollTranscript_frame key job w) as (Hp & _ & _ & _ & Hn).
    unfold Inv, single_timer, sound_in_flight, keyed_intervals, fresh_requests.
    rewrite Hr, Hi, Hp, Hn. repeat split; eauto.
  - unfold pollTranscript. rewrite Hkey. simpl. repeat split; assumption.
Qed.

Lemma keeps_suspend req s : sound_suspension s -> keeps (suspend req s).
Proof.
  intros Hs w (Ht & Hf & Hk & Hq). repeat split; try assumption.
  - constructor; assumption.
  - constructor; simpl; [lia|].
    eapply Forall_impl; [|exact Hq]. simpl. intros; lia.
Qed.

Lemma keeps_settle r : keeps (settle r).
Proof.
  intros w (Ht & Hf & Hk & Hq). repeat split; try assumption.
  - apply Forall_filter_keep, Hf.
  - apply Forall_filter_keep, Hq.
Qed.

#[export] Hint Resolve quiet_keeps keeps_and_then keeps_stop_polling
  keeps_pollTranscript keeps_settle : loop.

Lemma keeps_resetState : keeps resetState.
Proof. unfold resetState. auto 12 with loop. Qed.

Lemma keeps_poll_then result : keeps (poll_then result).
Proof. unfold poll_then. destruct (t_status result); auto 10 with loop. Qed.

Lemma keeps_poll_catch err : keeps (poll_catch err).
Proof. unfold poll_catch. auto 10 with loop. Qed.

Lemma quiet_submit_catch err : quiet (submit_catch err).
Proof. unfold submit_catch. auto with loop. Qed.

#[export] Hint Resolve keeps_resetState keeps_poll_then keeps_poll_catch
  quiet_submit_catch : loop.

Lemma keeps_poll_tick job key : keeps (poll_tick job key).
Proof.
  unfold poll_tick, getTranscriptionResult.
  destruct (truthy key); simpl; [|auto with loop].
  apply keeps_suspend. reflexivity.
Qed.

Lemma keeps_submit_job url key : keeps (submit_job url key).
Proof.
  unfold submit_job, submitForTranscription.
  destruct (truthy key) eqn:Hkey; simpl; [|auto with loop].
  apply keeps_and_then; [auto with loop|].
  apply keeps_suspend. split; [reflexivity | assumption].
Qed.

Lemma keeps_submit_then key t : keeps (submit_then key t).
Proof. unfold submit_then. destruct (t_status t); auto 10 with loop. Qed.

#[export] Hint Resolve keeps_poll_tick keeps_submit_job keeps_submit_then
  : loop.

Lemma keeps_handleSubmit : keeps handleSubmit.
Proof.
  intros w Hw. unfold handleSubmit.
  destruct (truthy (apiKey (ui w))) eqn:Hkey; simpl.
  - destruct (_ || _); [assumption|].
    apply (keeps_and_then _ _); [auto with loop| |assumption].
    do 2 (apply keeps_and_then; [auto with loop|]).
    destruct (selectedFile (ui w)) as [file|]; [|auto with loop].
    apply keeps_and_then; [auto with loop|].
    unfold uploadFile. rewrite Hkey; simpl.
    apply keeps_suspend. split; [reflexivity | assumption].
  - apply (keeps_and_then _ _); auto with loop.
Qed.

Lemma quiet_handleCopy : quiet handleCopy.
Proof.
  intro w. unfold handleCopy.
  destruct (transcript (ui w)) as [t|]; [|repeat split].
  destruct (truthy_opt (text t)); repeat split.
Qed.

Lemma quiet_handleUrlChange v : quiet (handleUrlChange v).
Proof. unfold handleUrlChange. destruct (truthy v); auto with loop. Qed.

Lemma quiet_handleFileChange f : quiet (handleFileChange f).
Proof. unfold handleFileChange. destruct f; auto with loop. Qed.

#[export] Hint Resolve keeps_handleSubmit quiet_handleCopy
  quiet_handleUrlChange quiet_handleFileChange : loop.

Lemma step_Inv w e : Inv w -> Inv (step w e).
Proof.
  intros Hw. destruct e; simpl.
  - apply (keeps_and_then _ _); auto with loop.
  - apply quiet_keeps; auto with loop.
  - apply quiet_keeps; auto with loop.
  - apply keeps_handleSubmit, Hw.
  - apply keeps_resetState, Hw.
  - apply quiet_keeps; auto with loop.
  - destruct (copy_timeouts w); [assumption|].
    apply (keeps_and_then _ _); auto with loop.
  - destruct (lookup_handle h (intervals w)) as [[job key]|]; [|assumption].
    apply keeps_poll_tick, Hw.
  - destruct (lookup r (in_flight w)) as [[k key|k key|k]|]; try assumption.
    apply (keeps_and_then _ _); [auto with loop| |assumption].
    destruct (k o); auto with loop.
  - destruct (lookup r (in_flight w)) as [[k key|k key|k]|]; try assumption;
      (apply (keeps_and_then _ _); [auto with loop| |assumption]);
      destruct (k o); auto with loop.
Qed.

Lemma run_Inv es : forall w, Inv w -> Inv (run w es).
Proof.
  unfold run. induction es as [|e es IH]; simpl; intros w Hw; [assumption|].
  apply IH, step_Inv, Hw.
Qed.

Lemma mount_Inv stored : Inv (mount stored).
Proof. repeat split; constructor. Qed.

Lemma reachable_Inv w : reachable w -> Inv w.
Proof. intros (stored & es & ->). apply run_Inv, mount_Inv. Qed.

Lemma reachable_step w e : reachable w -> reachable (step w e).
Proof.
  intros (stored & es & ->). exists stored, (es ++ [e])%list.
  unfold run. rewrite fold_left_app. reflexivity.
Qed.

(* ------------------------------------------------------------------ *)
(** ** Strings *)

Lemma prefix_app p s : String.prefix p (p ++ s) = true.
Proof.
  induction p as [|c p IH]; simpl; [destruct s; reflexivity|].
  destruct (ascii_dec c c) as [_|Hne]; [exact IH | now elim Hne].
Qed.

Lemma contains_prefix part msg :
  String.prefix part msg = true -> contains part msg = true.
Proof. intros H. destruct msg; cbn [contains]; rewrite H; reflexivity. Qed.

Lemma Carries_contains msg part : Carries msg part -> contains part msg = true.
Proof.
  intros (pre & suf & ->).
  induction pre as [|c pre IH]; cbn [append contains].
  - apply contains_prefix, prefix_app.
  - rewrite IH. apply orb_true_r.
Qed.

Lemma Carries_intro pre part suf : Carries (pre ++ part ++ suf) part.
Proof. exists pre, suf. reflexivity. Qed.

Lemma Carries_end pre part : Carries (pre ++ part) part.
Proof.
  exists pre, "". f_equal.
  induction part as [|c part IH]; simpl; [reflexivity | now rewrite <- IH].
Qed.

Lemma Carries_app_l a b part : Carries b part -> Carries (a ++ b) part.
Proof.
  intros (pre & suf & ->). exists (a ++ pre), suf.
  induction a as [|c a IH]; simpl; [reflexivity | now rewrite IH].
Qed.

Lemma truthy_empty s : truthy s = false <-> s = "".
Proof. destruct s; simpl; split; congruence. Qed.

Lemma or_else_verbatim m fallback :
  m <> "" -> or_else (Some m) fallback = m.
Proof. destruct m; simpl; congruence. Qed.

Lemma or_else_key k : or_else (Some k) "" = k.
Proof. destruct k; reflexivity. Qed.

(* ------------------------------------------------------------------ *)
(** ** The Transcription Client *)

Lemma Carries_api_error pre code txt err :
  Carries (pre ++ string_of_nat code ++ " " ++ txt ++ " - " ++ err)
          (string_of_nat code)
  /\ Carries (pre ++ string_of_nat code ++ " " ++ txt ++ " - " ++ err) err.
Proof.
  split; [apply Carries_intro|].
  apply (Carries_app_l pre), (Carries_app_l (string_of_nat code)),
    (Carries_app_l " "), (Carries_app_l txt), (Carries_end " - " err).
Qed.



(* ------------------------------------------------------------------ *)
(** ** The Workflow Controller: submitting *)

(** C3.  A submit with the empty key moves to the error state showing the
    "enter your key" message, and touches nothing else but the record of
    status changes: no request goes on the wire, nothing is parked, nothing
    is logged, no timer is touched, whatever state the submit came in. *)
Theorem submit_without_key :
  forall w : World,
    apiKey (ui w) = "" ->
    let w' := step w Submit in
    status (ui w') = Status.error
    /\ error (ui w')
       = Some "Por favor, insira sua chave da API AssemblyAI para continuar."
    /\ wire w' = wire w
    /\ in_flight w' = in_flight w
    /\ next_request w' = next_request w
    /\ console w' = console w
    /\ intervals w' = intervals w
    /\ pollingIntervalRef w' = pollingIntervalRef w
    /\ transcript (ui w') = transcript (ui w)
    /\ status_trace w' = Status.error :: status_trace w.
Proof.
  intros w Hkey. simpl. unfold handleSubmit. rewrite Hkey. simpl.
  repeat split.
Qed.

Lemma submit_without_key_witness :
  apiKey (ui (mount None)) = ""
  /\ status (ui (step (mount None) Submit)) = Status.error
  /\ wire (step (mount None) Submit) = [].
Proof.
  split; [reflexivity|].
  destruct (submit_without_key (mount None) eq_refl)
    as (Hs & _ & Hw & _).
  split; [exact Hs | exact Hw].
Defined.

(** C9.  With a non-empty key, a submit while a job is in flight (status
    uploading, submitting or polling), or while neither a URL nor a file is
    set, changes nothing at all: the world after is the world before. *)
Theorem submit_ignored :
  forall w : World,
    apiKey (ui w) <> "" ->
    isProcessing (status (ui w)) = true
    \/ (audioUrl (ui w) = "" /\ selectedFile (ui w) = None) ->
    step w Submit = w.
Proof.
  intros w Hkey Hguard. simpl. unfold handleSubmit.
  destruct (truthy (apiKey (ui w))) eqn:Ht.
  - simpl. destruct Hguard as [Hp | [Hu Hf]].
    + rewrite Hp, orb_true_r. reflexivity.
    + rewrite Hu, Hf. reflexivity.
  - apply truthy_empty in Ht. contradiction.
Qed.

Lemma submit_ignored_witness :
  apiKey (ui polling_world) <> ""
  /\ isProcessing (status (ui polling_world)) = true
  /\ step polling_world Submit = polling_world.
Proof.
  split; [discriminate|]. split; [reflexivity|].
  apply submit_ignored; [discriminate | left; reflexivity].
Defined.

(** C4.  When the job creation a submission awaits resolves to a job whose
    status is already [completed], the controller goes to [completed] with
    that job published, and [completed] is the only status it sets on the
    way: it does not pass through [polling].  No timer is scheduled (the
    timers, the ref and the next handle are as before) and no request is
    issued. *)
Theorem created_already_completed :
  forall (w : World) (r : nat) (o : fetch_outcome Transcript) k key job,
    lookup r (in_flight w) = Some (AwaitSubmit k key) ->
    k o = Resolved job ->
    t_status job = TranscriptStatus.completed ->
    let w' := step w (TranscriptSettles r o) in
    status (ui w') = Status.completed
    /\ transcript (ui w') = Some job
    /\ error (ui w') = error (ui w)
    /\ status_trace w' = Status.completed :: status_trace w
    /\ intervals w' = intervals w
    /\ pollingIntervalRef w' = pollingIntervalRef w
    /\ next_handle w' = next_handle w
    /\ wire w' = wire w.
Proof.
  intros w r o k key job Hl Hk Hs. simpl. rewrite Hl.
  unfold and_then at 1. rewrite Hk. unfold submit_then. rewrite Hs.
  repeat split.
Qed.

(** A URL submitted with key [k1], the creation answered [completed]. *)
Lemma created_already_completed_witness :
  let w := run (mount (Some "k1")) [UrlChange "https://x/a.mp3"; Submit] in
  let w' := step w (TranscriptSettles 0 (HttpOk (Json job_done))) in
  status (ui w') = Status.completed
  /\ transcript (ui w') = Some job_done
  /\ status_trace w' = [Status.completed; Status.submitting]
  /\ intervals w' = [].
Proof.
  destruct (created_already_completed
              (run (mount (Some "k1")) [UrlChange "https://x/a.mp3"; Submit])
              0 (HttpOk (Json job_done)) transcript_response "k1" job_done
              eq_refl eq_refl eq_refl)
    as (Hs & Ht & _ & Htr & Hi & _).
  repeat split; assumption.
Defined.

(* ------------------------------------------------------------------ *)
(** ** The Workflow Controller: polling *)

(** C5.  When the request of a poll tick resolves to a job whose status is
    [error], the controller stops the poll timer (no timer runs afterwards
    and the ref is empty), publishes the job, goes to the error state and
    shows the job's error message: the message itself, unchanged, when the
    job has a non-empty one, and the fixed fallback text otherwise. *)
Theorem poll_reports_job_error :
  forall (w : World) (r : nat) (o : fetch_outcome Transcript) k job,
    reachable w ->
    lookup r (in_flight w) = Some (AwaitResult k) ->
    k o = Resolved job ->
    t_status job = TranscriptStatus.error ->
    let w' := step w (TranscriptSettles r o) in
    intervals w' = []
    /\ pollingIntervalRef w' = None
    /\ status (ui w') = Status.error
    /\ transcript (ui w') = Some job
    /\ error (ui w')
       = Some (or_else (t_error job) "Falha ao processar a transcrição.")
    /\ (forall m, t_error job = Some m -> m <> "" -> error (ui w') = Some m).
Proof.
  intros w r o k job Hw Hl Hk Hs. simpl. rewrite Hl.
  unfold and_then at 1. rewrite Hk. unfold poll_then. rewrite Hs.
  apply reachable_Inv in Hw.
  destruct (keeps_settle r w Hw) as (Ht & _).
  destruct (stop_polling_stops _ Ht) as [Hi Hr].
  unfold and_then. simpl. rewrite Hi, Hr.
  repeat split.
  intros m -> Hm. rewrite (or_else_verbatim m _ Hm). reflexivity.
Qed.

Lemma ticked_world_reachable : reachable ticked_world.
Proof.
  unfold ticked_world, polling_world. apply reachable_step.
  exists (Some "k1"), [UrlChange "https://x/a.mp3"; Submit;
                       TranscriptSettles 0 (HttpOk (Json job_queued))].
  reflexivity.
Qed.

(** The tick in flight in [ticked_world] answered with a failed job. *)
Lemma poll_reports_job_error_witness :
  let w' := step ticked_world (TranscriptSettles 1 (HttpOk (Json job_failed))) in
  intervals ticked_world = [(1%positive, ("t1", "k1"))]
  /\ intervals w' = []
  /\ status (ui w') = Status.error
  /\ error (ui w') = Some "Download error, file not found".
Proof.
  destruct (poll_reports_job_error ticked_world 1
              (HttpOk (Json job_failed)) transcript_response job_failed
              ticked_world_reachable eq_refl eq_refl eq_refl)
    as (Hi & _ & Hs & _ & He & _).
  split; [reflexivity|]. repeat split; assumption.
Defined.

(** C6, as the spec words it, fails: a poll whose request comes back
    [500 Internal Server Error] with the message [boom] leaves a message on
    screen that carries neither. *)
Lemma poll_failure_message_is_generic :
  let w' := step ticked_world
              (TranscriptSettles 1
                 (HttpError 500 "Internal Server Error" (Json (Some "boom")))) in
  status (ui w') = Status.error
  /\ error (ui w')
     = Some "Não foi possível obter o resultado da transcrição."
  /\ ~ shows_service_error w' 500 "boom".
Proof.
  split; [reflexivity|]. split; [reflexivity|].
  intros (m & Hm & Hcode & _).
  injection Hm as <-.
  apply Carries_contains in Hcode. vm_compute in Hcode. discriminate.
Qed.

(** C6, amended.  When the request of a poll tick fails (the network
    fails, the status is not a success, or the body is not JSON), the
    controller stops the poll timer, goes to the error state and shows one
    fixed message, whatever the failure; the thrown error goes to the
    console only.  For a failure status with the service's JSON error
    object, that logged error is [API Error: <code> <text> - <message>]. *)
Theorem poll_request_failure :
  forall (w : World) (r : nat) (o : fetch_outcome Transcript) k err,
    reachable w ->
    lookup r (in_flight w) = Some (AwaitResult k) ->
    k o = Threw err ->
    let w' := step w (TranscriptSettles r o) in
    intervals w' = []
    /\ pollingIntervalRef w' = None
    /\ status (ui w') = Status.error
    /\ error (ui w')
       = Some "Não foi possível obter o resultado da transcrição."
    /\ transcript (ui w') = transcript (ui w)
    /\ console w' = err :: console w
    /\ (forall code txt m,
          o = HttpError code txt (Json m) ->
          err = ErrorObj ("API Error: " ++ string_of_nat code ++ " " ++ txt
                          ++ " - " ++ template_opt m)).
Proof.
  intros w r o k err Hw Hl Hk. simpl. rewrite Hl.
  unfold and_then at 1. rewrite Hk. unfold poll_catch.
  apply reachable_Inv in Hw.
  assert (Hsound : sound_suspension (AwaitResult k)).
  { destruct Hw as (_ & Hf & _).
    exact (lookup_Forall sound_suspension r _ _ Hl Hf). }
  simpl in Hsound. subst k.
  destruct (keeps_settle r w Hw) as (Ht & _).
  destruct (stop_polling_stops _ Ht) as [Hi Hr].
  destruct (stop_polling_frame (settle r w)) as (_ & Hu & _ & Hc & _).
  unfold and_then. simpl. rewrite Hi, Hr, Hu, Hc.
  repeat split.
  intros code txt m ->. simpl in Hk. injection Hk as <-. reflexivity.
Qed.

Lemma poll_request_failure_witness :
  let w' := step ticked_world
              (TranscriptSettles 1
                 (HttpError 500 "Internal Server Error" (Json (Some "boom")))) in
  intervals w' = []
  /\ console w' = [ErrorObj "API Error: 500 Internal Server Error - boom"].
Proof.
  destruct (poll_request_failure ticked_world 1
              (HttpError 500 "Internal Server Error" (Json (Some "boom")))
              transcript_response
              (ErrorObj "API Error: 500 Internal Server Error - boom")
              ticked_world_reachable eq_refl eq_refl)
    as (Hi & _ & _ & _ & _ & Hc & _).
  split; assumption.
Defined.

(* ------------------------------------------------------------------ *)
(** ** The Workflow Controller: the source and the reset *)

Lemma keeps_source_and_then a b :
  keeps_source a -> keeps_source b -> keeps_source (a ;; b).
Proof.
  intros Ha Hb w. unfold and_then.
  destruct (Ha w) as [Hu Hf]. destruct (Hb (a w)) as [Hu' Hf'].
  split; congruence.
Qed.

Lemma keeps_source_basic :
  (forall v, keeps_source (setApiKey v))
  /\ (forall v, keeps_source (setTranscript v))
  /\ (forall v, keeps_source (setError v))
  /\ (forall v, keeps_source (setIsCopied v))
  /\ (forall v, keeps_source (setStatus v))
  /\ (forall e, keeps_source (console_error e))
  /\ (forall req s, keeps_source (suspend req s))
  /\ (forall r, keeps_source (settle r))
  /\ (forall v n, keeps_source (set_clipboard v n))
  /\ keeps_source persist_key
  /\ keeps_source skip.
Proof. repeat split. Qed.

Lemma keeps_source_stop_polling : keeps_source stop_polling.
Proof. intro w. destruct (stop_polling_frame w) as (_ & -> & _). auto. Qed.

Lemma keeps_source_pollTranscript key job :
  keeps_source (pollTranscript key job).
Proof.
  intro w. destruct (pollTranscript_frame key job w) as (_ & -> & _). auto.
Qed.

Ltac source_frame :=
  repeat match goal with
    | |- keeps_source (and_then _ _) => apply keeps_source_and_then
    | |- keeps_source stop_polling => apply keeps_source_stop_polling
    | |- keeps_source (pollTranscript _ _) =>
        apply keeps_source_pollTranscript
    | |- keeps_source (setApiKey _) => apply keeps_source_basic
    | |- keeps_source (setTranscript _) => apply keeps_source_basic
    | |- keeps_source (setError _) => apply keeps_source_basic
    | |- keeps_source (setIsCopied _) => apply keeps_source_basic
    | |- keeps_source (setStatus _) => apply keeps_source_basic
    | |- keeps_source (console_error _) => apply keeps_source_basic
    | |- keeps_source (suspend _ _) => apply keeps_source_basic
    | |- keeps_source (settle _) => apply keeps_source_basic
    | |- keeps_source (set_clipboard _ _) => apply keeps_source_basic
    | |- keeps_source persist_key => apply keeps_source_basic
    | |- keeps_source skip => apply keeps_source_basic
    end.

Lemma keeps_source_submit_catch err : keeps_source (submit_catch err).
Proof. unfold submit_catch. source_frame. Qed.

Lemma keeps_source_submit_job url key : keeps_source (submit_job url key).
Proof.
  unfold submit_job. source_frame.
  destruct (submitForTranscription url key);
    [apply keeps_source_submit_catch | source_frame].
Qed.

Lemma keeps_source_submit_then key job : keeps_source (submit_then key job).
Proof. unfold submit_then. destruct (t_status job); source_frame. Qed.

Lemma keeps_source_poll_then job : keeps_source (poll_then job).
Proof. unfold poll_then. destruct (t_status job); source_frame. Qed.

Lemma keeps_source_poll_catch err : keeps_source (poll_catch err).
Proof. unfold poll_catch. source_frame. Qed.

Lemma keeps_source_handleSubmit : keeps_source handleSubmit.
Proof.
  intro w. unfold handleSubmit.
  destruct (negb (truthy (apiKey (ui w)))); [split; reflexivity|].
  destruct (_ || _); [split; reflexivity|].
  revert w.
  enough (H : forall f u k,
             keeps_source
               (setError None ;; setTranscript None ;; setIsCopied false ;;
                match f with
                | Some file =>
                    setStatus Status.uploading ;;
                    match uploadFile file k with
                    | Rejected e => submit_catch e
                    | Requested req k0 => suspend req (AwaitUpload k0 k)
                    end
                | None => submit_job u k
                end)) by (intro w; apply H).
  intros f u k. source_frame.
  destruct f as [file|]; [|apply keeps_source_submit_job].
  source_frame.
  destruct (uploadFile file k);
    [apply keeps_source_submit_catch | source_frame].
Qed.

Lemma keeps_source_handleCopy : keeps_source handleCopy.
Proof.
  intro w. unfold handleCopy.
  destruct (transcript (ui w)) as [t|]; [|split; reflexivity].
  destruct (truthy_opt (text t)); split; reflexivity.
Qed.

Lemma step_exclusive w e :
  exclusive_source (ui w) -> exclusive_source (ui (step w e)).
Proof.
  assert (frame : forall a, keeps_source a ->
                    exclusive_source (ui w) -> exclusive_source (ui (a w))).
  { intros a Ha. unfold exclusive_source.
    destruct (Ha w) as [-> ->]. auto. }
  destruct e as [v|v|f| | | | |h|r o|r o]; cbn [step].
  - apply frame. source_frame.
  - intros _. unfold handleUrlChange, exclusive_source.
    destruct v; simpl; auto.
  - intros _. unfold handleFileChange, exclusive_source.
    destruct f; simpl; auto.
  - apply frame, keeps_source_handleSubmit.
  - intros _. unfold exclusive_source, resetState, and_then.
    destruct (stop_polling_frame
                (setIsCopied false (setError None (setStatus Status.idle
                  (setTranscript None (setSelectedFile None
                    (setAudioUrl "" w))))))) as (_ & -> & _).
    left; reflexivity.
  - apply frame, keeps_source_handleCopy.
  - destruct (copy_timeouts w); [auto|]. apply frame. source_frame.
  - destruct (lookup_handle h (intervals w)) as [[job key]|]; [|auto].
    apply frame. unfold poll_tick.
    destruct (getTranscriptionResult job key);
      [apply keeps_source_poll_catch | source_frame].
  - destruct (lookup r (in_flight w)) as [[k key|k key|k]|]; auto.
    apply frame. source_frame.
    destruct (k o);
      [apply keeps_source_submit_job | apply keeps_source_submit_catch].
  - destruct (lookup r (in_flight w)) as [[k key|k key|k]|]; auto;
      apply frame; source_frame; destruct (k o).
    + apply keeps_source_submit_then.
    + apply keeps_source_submit_catch.
    + apply keeps_source_poll_then.
    + apply keeps_source_poll_catch.
Qed.

(** C2.  In every world the event loop reaches, the URL and the selected
    file are not both populated.  Entering a URL (a non-empty one) clears
    the selected file, and selecting a file clears the URL. *)
Theorem source_is_exclusive :
  forall (stored : option string) (es : list Event),
    let w := run (mount stored) es in
    exclusive_source (ui w)
    /\ (forall value,
          truthy value = true ->
          audioUrl (ui (step w (UrlChange value))) = value
          /\ selectedFile (ui (step w (UrlChange value))) = None)
    /\ (forall file,
          selectedFile (ui (step w (FileChange (Some file)))) = Some file
          /\ audioUrl (ui (step w (FileChange (Some file)))) = "").
Proof.
  intros stored es. simpl. split; [|split].
  - unfold run. generalize (mount stored) (or_introl eq_refl
      : exclusive_source (ui (mount stored))).
    induction es as [|e es IH]; simpl; intros w Hw; [exact Hw|].
    apply IH, step_exclusive, Hw.
  - intros value Hv. unfold handleUrlChange, and_then. rewrite Hv.
    split; reflexivity.
  - intros file. split; reflexivity.
Qed.

(** A file is chosen, then a URL typed over it, then a file again. *)
Lemma source_is_exclusive_witness :
  let w := run (mount None) [FileChange (Some (mkFile "a.mp3" "riff"))] in
  truthy "https://x/a.mp3" = true
  /\ selectedFile (ui w) = Some (mkFile "a.mp3" "riff")
  /\ selectedFile (ui (step w (UrlChange "https://x/a.mp3"))) = None.
Proof.
  split; [reflexivity|]. split; [reflexivity|].
  apply (source_is_exclusive None [FileChange (Some (mkFile "a.mp3" "riff"))]).
  reflexivity.
Defined.

(** C10.  A reset, from any world, empties the URL and the selected file
    and lowers the copied flag, besides clearing the job and the error and
    going to idle; the key is kept.  No source is populated afterwards. *)
Theorem reset_clears_inputs :
  forall w : World,
    let w' := step w Reset in
    audioUrl (ui w') = ""
    /\ selectedFile (ui w') = None
    /\ isCopied (ui w') = false
    /\ transcript (ui w') = None
    /\ error (ui w') = None
    /\ status (ui w') = Status.idle
    /\ apiKey (ui w') = apiKey (ui w)
    /\ pollingIntervalRef w' = None.
Proof.
  intros w. simpl. unfold resetState, and_then.
  set (w1 := setIsCopied false _).
  destruct (stop_polling_frame w1) as (_ & -> & _).
  repeat split.
  unfold stop_polling. destruct (pollingIntervalRef w1) eqn:Hr; [|exact Hr].
  reflexivity.
Qed.

(* ------------------------------------------------------------------ *)
(** ** Two worlds that behave alike *)

Section Alike.

Variables ra rb : nat.
Variables Wa Wb : list http_request.
Variables Sa Sb : list Status.t.

Local Abbreviation sim := (alike ra rb Wa Wb Sa Sb).
Local Abbreviation alike2 := (alike2 ra rb Wa Wb Sa Sb).

Lemma alike2_and_then f g f' g' :
  alike2 f g -> alike2 f' g' -> alike2 (f ;; f') (g ;; g').
Proof. intros H H' a b Hab. apply H', H, Hab. Qed.

Lemma alike2_with_ui f : alike2 (with_ui f) (with_ui f).
Proof.
  intros a b (Hu & Hp & Ha & Hb & Hw & Hs & Hn & Hl).
  repeat split; try assumption. simpl. now rewrite Hu.
Qed.

Lemma alike2_setStatus v : alike2 (setStatus v) (setStatus v).
Proof.
  intros a b (Hu & Hp & Ha & Hb & Hw & (new & Hsa & Hsb) & Hn & Hl).
  repeat split; try assumption.
  - simpl. now rewrite Hu.
  - exists (v :: new). simpl. now rewrite Hsa, Hsb.
Qed.

Lemma alike2_console_error e e' : alike2 (console_error e) (console_error e').
Proof. intros a b H. exact H. Qed.

Lemma alike2_persist_key : alike2 persist_key persist_key.
Proof. intros a b H. exact H. Qed.

Lemma alike2_skip : alike2 skip skip.
Proof. intros a b H. exact H. Qed.

Lemma eqb_shift r d d' : Nat.eqb (r + d) (r + d') = Nat.eqb d d'.
Proof.
  destruct (Nat.eqb_spec d d') as [->|Hne]; [apply Nat.eqb_refl|].
  apply Nat.eqb_neq. lia.
Qed.

Lemma alike2_suspend req s : alike2 (suspend req s) (suspend req s).
Proof.
  intros a b (Hu & Hp & Ha & Hb & (new & Hwa & Hwb) & Hs & (d & Hna & Hnb)
              & Hl).
  repeat split; try assumption.
  - exists (req :: new). simpl. now rewrite Hwa, Hwb.
  - exists (S d). simpl. rewrite Hna, Hnb. lia.
  - intros d'. simpl. rewrite Hna, Hnb, !eqb_shift, Hl. reflexivity.
Qed.

Lemma lookup_filter_out {A} (l : list (nat * A)) r m :
  lookup m (filter (fun e => negb (Nat.eqb (fst e) r)) l)
  = if Nat.eqb m r then None else lookup m l.
Proof.
  induction l as [|[r' x] l IH]; simpl; [now destruct (Nat.eqb m r)|].
  destruct (Nat.eqb_spec r' r) as [->|Hne]; simpl.
  - rewrite IH. destruct (Nat.eqb m r); reflexivity.
  - rewrite IH. destruct (Nat.eqb_spec m r') as [->|Hm].
    + apply Nat.eqb_neq in Hne. now rewrite Hne.
    + reflexivity.
Qed.

Lemma alike2_settle d : alike2 (settle (ra + d)) (settle (rb + d)).
Proof.
  intros a b (Hu & Hp & Ha & Hb & Hw & Hs & Hn & Hl).
  repeat split; try assumption.
  intros d'. simpl. rewrite !lookup_filter_out, !eqb_shift, Hl. reflexivity.
Qed.

Lemma single_timer_agree a b :
  single_timer a -> single_timer b -> polls a = polls b ->
  (pollingIntervalRef a = None <-> pollingIntervalRef b = None).
Proof.
  unfold single_timer, polls.
  destruct (pollingIntervalRef a), (pollingIntervalRef b);
    intros Ha Hb Hp; split; intros H; try discriminate; try reflexivity.
  - destruct Ha as [c Hc]. rewrite Hc, Hb in Hp. discriminate.
  - destruct Hb as [c Hc]. rewrite Hc, Ha in Hp. discriminate.
Qed.

Lemma alike2_stop_polling : alike2 stop_polling stop_polling.
Proof.
  intros a b (Hu & Hp & Ha & Hb & Hw & Hs & Hn & Hl).
  destruct (stop_polling_stops a Ha) as [Hia Hra].
  destruct (stop_polling_stops b Hb) as [Hib Hrb].
  destruct (stop_polling_frame a) as (Hfa & Hua & Hwa & _ & Hsa & _ & Hna).
  destruct (stop_polling_frame b) as (Hfb & Hub & Hwb & _ & Hsb & _ & Hnb).
  unfold alike, single_timer, polls.
  rewrite Hia, Hra, Hib, Hrb, Hfa, Hua, Hwa, Hsa, Hna, Hfb, Hub, Hwb, Hsb, Hnb.
  repeat split; assumption.
Qed.

Lemma alike2_pollTranscript key job :
  alike2 (pollTranscript key job) (pollTranscript key job).
Proof.
  intros a b (Hu & Hp & Ha & Hb & Hw & Hs & Hn & Hl).
  destruct (truthy key) eqn:Hkey.
  - destruct (pollTranscript_intervals key job a Ha Hkey) as [Hia Hra].
    destruct (pollTranscript_intervals key job b Hb Hkey) as [Hib Hrb].
    destruct (pollTranscript_frame key job a) as (Hfa & Hua & Hwa & Hsa & Hna).
    destruct (pollTranscript_frame key job b) as (Hfb & Hub & Hwb & Hsb & Hnb).
    unfold alike, single_timer, polls.
    rewrite Hia, Hra, Hib, Hrb, Hfa, Hua, Hwa, Hsa, Hna,
      Hfb, Hub, Hwb, Hsb, Hnb.
    repeat split; eauto.
  - unfold pollTranscript. rewrite Hkey. simpl.
    repeat split; assumption.
Qed.

Ltac alike_frame :=
  repeat match goal with
    | |- alike2 (and_then _ _) (and_then _ _) => apply alike2_and_then
    | |- alike2 stop_polling stop_polling => apply alike2_stop_polling
    | |- alike2 (pollTranscript _ _) _ => apply alike2_pollTranscript
    | |- alike2 (setStatus _) _ => apply alike2_setStatus
    | |- alike2 (with_ui _) _ => apply alike2_with_ui
    | |- alike2 (setApiKey _) _ => apply alike2_with_ui
    | |- alike2 (setAudioUrl _) _ => apply alike2_with_ui
    | |- alike2 (setSelectedFile _) _ => apply alike2_with_ui
    | |- alike2 (setTranscript _) _ => apply alike2_with_ui
    | |- alike2 (setError _) _ => apply alike2_with_ui
    | |- alike2 (setIsCopied _) _ => apply alike2_with_ui
    | |- alike2 (console_error _) _ => apply alike2_console_error
    | |- alike2 (suspend _ _) _ => apply alike2_suspend
    | |- alike2 (settle (ra + _)) _ => apply alike2_settle
    | |- alike2 persist_key _ => apply alike2_persist_key
    | |- alike2 skip _ => apply alike2_skip
    end.

Ltac alike_lift H :=
  match goal with
  | a : World, b : World |- _ => refine ((_ : alike2 _ _) a b H)
  end.

Lemma alike2_submit_catch err : alike2 (submit_catch err) (submit_catch err).
Proof. unfold submit_catch. alike_frame. Qed.

Lemma alike2_submit_job url key :
  alike2 (submit_job url key) (submit_job url key).
Proof.
  unfold submit_job. alike_frame.
  destruct (submitForTranscription url key);
    [apply alike2_submit_catch | alike_frame].
Qed.

Lemma alike2_submit_then key job :
  alike2 (submit_then key job) (submit_then key job).
Proof. unfold submit_then. destruct (t_status job); alike_frame. Qed.

Lemma alike2_poll_then job : alike2 (poll_then job) (poll_then job).
Proof. unfold poll_then. destruct (t_status job); alike_frame. Qed.

Lemma alike2_poll_catch err : alike2 (poll_catch err) (poll_catch err).
Proof. unfold poll_catch. alike_frame. Qed.

Lemma alike2_handleSubmit : alike2 handleSubmit handleSubmit.
Proof.
  intros a b Hab. assert (Hu : ui a = ui b) by apply Hab.
  unfold handleSubmit. rewrite Hu.
  destruct (negb (truthy (apiKey (ui b)))).
  { alike_lift Hab. alike_frame. }
  destruct (_ || _); [exact Hab|].
  alike_lift Hab. alike_frame.
  destruct (selectedFile (ui b)) as [file|]; [|apply alike2_submit_job].
  alike_frame.
  destruct (uploadFile file (apiKey (ui b)));
    [apply alike2_submit_catch | alike_frame].
Qed.

Lemma alike2_resetState : alike2 resetState resetState.
Proof. unfold resetState. alike_frame. Qed.

Lemma alike_step a b ea eb :
  paired ra rb ea eb -> sim a b -> sim (step a ea) (step b eb).
Proof.
  intros Hp Hab. destruct Hp as [v|v|f| | |d o|d o]; cbn [step].
  - alike_lift Hab. alike_frame.
  - alike_lift Hab. unfold handleUrlChange. destruct (truthy v); alike_frame.
  - alike_lift Hab. unfold handleFileChange. destruct f; alike_frame.
  - apply alike2_handleSubmit, Hab.
  - apply alike2_resetState, Hab.
  - assert (Hl : lookup (ra + d) (in_flight a) = lookup (rb + d) (in_flight b))
      by apply Hab.
    rewrite Hl. destruct (lookup (rb + d) (in_flight b)) as [[k key|k key|k]|];
      try exact Hab.
    alike_lift Hab. alike_frame.
    destruct (k o); [apply alike2_submit_job | apply alike2_submit_catch].
  - assert (Hl : lookup (ra + d) (in_flight a) = lookup (rb + d) (in_flight b))
      by apply Hab.
    rewrite Hl. destruct (lookup (rb + d) (in_flight b)) as [[k key|k key|k]|];
      try exact Hab;
      alike_lift Hab; alike_frame; destruct (k o).
    + apply alike2_submit_then.
    + apply alike2_submit_catch.
    + apply alike2_poll_then.
    + apply alike2_poll_catch.
Qed.

Lemma alike_run esa esb :
  Forall2 (paired ra rb) esa esb ->
  forall a b, sim a b -> sim (run a esa) (run b esb).
Proof.
  unfold run. induction 1 as [|ea eb esa esb Hp Hps IH]; simpl; intros a b Hab.
  - exact Hab.
  - apply IH, alike_step; assumption.
Qed.

End Alike.

(* ------------------------------------------------------------------ *)
(** ** The poll timer *)

Lemma single_timer_length w : single_timer w -> length (intervals w) <= 1.
Proof.
  unfold single_timer. destruct (pollingIntervalRef w).
  - intros [c ->]. simpl. lia.
  - intros ->. simpl. lia.
Qed.

Lemma reachable_mount stored : reachable (mount stored).
Proof. exists stored, []. reflexivity. Qed.

Lemma reachable_run es : forall w, reachable w -> reachable (run w es).
Proof.
  unfold run. induction es as [|e es IH]; simpl; intros w Hw; [exact Hw|].
  apply IH, reachable_step, Hw.
Qed.

Lemma refused_world_reachable : reachable refused_world.
Proof. do 2 apply reachable_run. apply reachable_mount. Qed.

(** C1, as the spec words it, fails.  With the poll on, the key is emptied,
    a submit is refused for it and the key is typed again; the timer of the
    first job is still running.  The next submit starts a submission (the
    status becomes [submitting]) and that timer keeps running, also when
    the new job comes back already completed. *)
Lemma submit_leaves_timer_running :
  reachable refused_world
  /\ intervals refused_world = [(1%positive, ("t1", "k1"))]
  /\ status (ui (step refused_world Submit)) = Status.submitting
  /\ intervals (step refused_world Submit) = [(1%positive, ("t1", "k1"))]
  /\ intervals (run refused_world
                  [Submit; TranscriptSettles 1 (HttpOk (Json job_done))])
     = [(1%positive, ("t1", "k1"))]
  /\ ~ submit_cancels_timers refused_world.
Proof.
  split; [exact refused_world_reachable|].
  split; [vm_compute; reflexivity|].
  split; [vm_compute; reflexivity|].
  split; [vm_compute; reflexivity|].
  split; [vm_compute; reflexivity|].
  intros H. apply (H (1%positive, ("t1", "k1"))); vm_compute; auto.
Qed.

(** C1, amended.  In every world the event loop reaches, at most one poll
    timer is running.  Scheduling a poll first cancels the timer the ref
    names, so the new timer is the only one; a submission whose job comes
    back queued or processing enters [polling] that way, and only then is
    the timer of an earlier job cancelled.  A reset cancels the timer. *)
Theorem one_poll_timer :
  forall (stored : option string) (es : list Event),
    let w := run (mount stored) es in
    length (intervals w) <= 1
    /\ (forall key job,
          truthy key = true ->
          intervals (pollTranscript key job w) = [(next_handle w, (job, key))])
    /\ (forall r o k key job,
          lookup r (in_flight w) = Some (AwaitSubmit k key) ->
          k o = Resolved job ->
          t_status job = TranscriptStatus.queued
          \/ t_status job = TranscriptStatus.processing ->
          status (ui (step w (TranscriptSettles r o))) = Status.polling
          /\ intervals (step w (TranscriptSettles r o))
             = [(next_handle w, (id job, key))])
    /\ intervals (step w Reset) = []
    /\ pollingIntervalRef (step w Reset) = None.
Proof.
  intros stored es w.
  assert (Hw : Inv w) by apply run_Inv, mount_Inv.
  split; [apply single_timer_length, Hw|].
  split; [intros key job Hkey; apply pollTranscript_intervals;
          [apply Hw | exact Hkey]|].
  split.
  - intros r o k key job Hl Hk Hs.
    assert (Hsound : sound_suspension (AwaitSubmit k key)).
    { destruct Hw as (_ & Hf & _).
      exact (lookup_Forall sound_suspension r _ _ Hl Hf). }
    destruct Hsound as [_ Hkey].
    cbn [step]. rewrite Hl. unfold and_then at 1. rewrite Hk.
    destruct (keeps_settle r w Hw) as (Ht & _).
    set (w1 := setStatus Status.polling
                 (setTranscript (Some job) (settle r w))).
    assert (Ht1 : single_timer w1) by exact Ht.
    destruct (pollTranscript_intervals key (id job) w1 Ht1 Hkey) as [Hi _].
    destruct (pollTranscript_frame key (id job) w1) as (_ & Hu & _).
    unfold submit_then.
    destruct Hs as [-> | ->]; unfold and_then; fold w1; rewrite Hi, Hu;
      split; reflexivity.
  - cbn [step]. unfold resetState, and_then.
    apply stop_polling_stops. apply Hw.
Qed.

(** The spec's example: key [k1], a URL, the job queued; then a second
    poll scheduled over the first. *)
Lemma one_poll_timer_witness :
  let w := run (mount (Some "k1"))
               [UrlChange "https://x/a.mp3"; Submit;
                TranscriptSettles 0 (HttpOk (Json job_queued))] in
  truthy "k1" = true
  /\ length (intervals w) <= 1
  /\ intervals (pollTranscript "k1" "t9" w) = [(next_handle w, ("t9", "k1"))]
  /\ intervals (step w Reset) = [].
Proof.
  split; [reflexivity|].
  destruct (one_poll_timer (Some "k1")
              [UrlChange "https://x/a.mp3"; Submit;
               TranscriptSettles 0 (HttpOk (Json job_queued))])
    as (Hlen & Hpoll & _ & Hreset & _).
  split; [exact Hlen|]. split; [|exact Hreset].
  exact (Hpoll "k1" "t9" eq_refl).
Defined.

(* ------------------------------------------------------------------ *)
(** ** Reset, then submit again *)

Lemma lookup_fresh {A} (l : list (nat * A)) n m :
  Forall (fun e => fst e < n) l -> n <= m -> lookup m l = None.
Proof.
  induction 1 as [|[r a] l Hr Hl IH]; simpl; intros Hm; [reflexivity|].
  simpl in Hr. destruct (Nat.eqb_spec m r); [lia | auto].
Qed.

Lemma resetState_ui w :
  ui (resetState w)
  = mkCtrl (apiKey (ui w)) "" None None Status.idle None false.
Proof.
  unfold resetState, and_then.
  set (w1 := setIsCopied false _).
  destruct (stop_polling_frame w1) as (_ & -> & _). reflexivity.
Qed.

Lemma input_frame w e :
  is_input e = true ->
  next_request (step w e) = next_request w
  /\ wire (step w e) = wire w
  /\ status_trace (step w e) = status_trace w.
Proof.
  destruct e as [v|v|f| | | | |h|r o|r o]; try discriminate; intros _;
    cbn [step].
  - repeat split.
  - unfold handleUrlChange. destruct (truthy v); repeat split.
  - unfold handleFileChange. destruct f; repeat split.
Qed.

Lemma inputs_frame prep :
  forallb is_input prep = true ->
  forall w,
    next_request (run w prep) = next_request w
    /\ wire (run w prep) = wire w
    /\ status_trace (run w prep) = status_trace w.
Proof.
  unfold run. induction prep as [|e prep IH]; simpl; intros H w; [auto|].
  apply andb_prop in H. destruct H as [He Hp].
  destruct (input_frame w e He) as (Hn & Hw & Hs).
  destruct (IH Hp (step w e)) as (Hn' & Hw' & Hs').
  repeat split; congruence.
Qed.

Lemma inputs_paired ra rb prep :
  forallb is_input prep = true -> Forall2 (paired ra rb) prep prep.
Proof.
  induction prep as [|e prep IH]; simpl; intros H; [constructor|].
  apply andb_prop in H. destruct H as [He Hp].
  constructor; [|auto].
  destruct e; try discriminate; constructor.
Qed.

Lemma submission_paired ra rb uo co n :
  Forall2 (paired ra rb) (firstn n (submission ra uo co))
                         (firstn n (submission rb uo co)).
Proof.
  unfold submission.
  rewrite <- (Nat.add_1_r ra), <- (Nat.add_1_r rb).
  pose proof (paired_upload ra rb 0 uo) as Hu.
  pose proof (paired_transcript ra rb 0 co) as Ht.
  rewrite !Nat.add_0_r in Hu, Ht.
  destruct n as [|[|[|[|n]]]]; cbn [firstn]; rewrite ?firstn_nil;
    repeat first [apply Forall2_nil | apply Forall2_cons];
    first [assumption | apply paired_submit | apply paired_transcript].
Qed.

Lemma reset_alike_mount w :
  Inv w ->
  alike (next_request (resetState w)) 0
        (wire (resetState w)) [] (status_trace (resetState w)) []
        (resetState w) (mount (Some (apiKey (ui w)))).
Proof.
  intros Hw.
  destruct (keeps_resetState w Hw) as (Ht & _ & _ & Hq).
  assert (Hi : intervals (resetState w) = []).
  { unfold resetState, and_then. apply stop_polling_stops. apply Hw. }
  split; [|split; [|split; [|split; [|split; [|split; [|split]]]]]].
  - rewrite resetState_ui. unfold mount. cbn [ui persist_key].
    now rewrite or_else_key.
  - unfold polls. now rewrite Hi.
  - exact Ht.
  - apply mount_Inv.
  - exists []. cbn [app]. split; reflexivity.
  - exists []. cbn [app]. split; reflexivity.
  - exists 0. split; [lia | reflexivity].
  - intros d. simpl. apply (lookup_fresh _ _ _ Hq). lia.
Qed.

Lemma overlapped_world_reachable : reachable overlapped_world.
Proof. apply reachable_run, ticked_world_reachable. Qed.

(** C7, as the spec words it, fails.  Two polls of the first job are in
    flight and the first is answered completed; the user resets, types
    another URL and submits, and the new job comes back queued.  Then the
    second poll of the first job is answered: the controller ends in
    [completed] showing the first job, the timer of the new job cleared.
    The same submission in the component as first mounted ends in
    [polling], the new job on display and its timer running. *)
Lemma stale_poll_breaks_resubmission :
  reachable overlapped_world
  /\ status (ui overlapped_world) = Status.completed
  /\ (let a := run (step overlapped_world Reset) [UrlChange "https://x/b.mp3"] in
      let b := run (mount (Some "k1")) [UrlChange "https://x/b.mp3"] in
      let co := HttpOk (Json second_job_queued) in
      let late := [TranscriptSettles 2 (HttpOk (Json first_job_done))] in
      let a' := run a (submission (next_request a) (NetworkFailure "") co
                       ++ late) in
      let b' := run b (submission (next_request b) (NetworkFailure "") co) in
      status (ui a') = Status.completed
      /\ transcript (ui a') = Some first_job_done
      /\ intervals a' = []
      /\ status (ui b') = Status.polling
      /\ transcript (ui b') = Some second_job_queued
      /\ intervals b' = [(1%positive, ("t3", "k1"))])
  /\ ~ resubmits_like_first overlapped_world.
Proof.
  split; [exact overlapped_world_reachable|].
  split; [vm_compute; reflexivity|].
  split; [vm_compute; repeat split|].
  intros H.
  specialize (H [UrlChange "https://x/b.mp3"] (NetworkFailure "")
                (HttpOk (Json second_job_queued))
                [TranscriptSettles 2 (HttpOk (Json first_job_done))]
                eq_refl eq_refl).
  vm_compute in H. discriminate H.
Qed.

(** C7, amended.  A reset clears the job and the error, stops the timer
    (none is running afterwards) and goes to idle; the cells are then those
    of the component as first mounted with the same key.  From there the
    user's edits of the form followed by a submission, the submission's
    upload and job creation answered the same way, go through the same
    cells, poll the same job, put the same requests on the wire and set
    the same statuses as they do in the component as first mounted, at
    every stage of the submission, as long as no request issued before the
    reset is answered meanwhile: a reset cancels no request in flight. *)
Theorem reset_then_submit :
  forall w : World,
    reachable w ->
    status (ui w) = Status.completed \/ status (ui w) = Status.error ->
    let w' := step w Reset in
    let fresh := mount (Some (apiKey (ui w))) in
    (transcript (ui w') = None
     /\ error (ui w') = None
     /\ status (ui w') = Status.idle
     /\ intervals w' = []
     /\ pollingIntervalRef w' = None)
    /\ ui w' = ui fresh
    /\ forall prep uo co n,
         forallb is_input prep = true ->
         let a := run w' prep in
         let b := run fresh prep in
         let a' := run a (firstn n (submission (next_request a) uo co)) in
         let b' := run b (firstn n (submission (next_request b) uo co)) in
         ui a' = ui b'
         /\ polls a' = polls b'
         /\ wire a' = (wire b' ++ wire a)%list
         /\ status_trace a' = (status_trace b' ++ status_trace a)%list.
Proof.
  intros w Hw _. apply reachable_Inv in Hw. cbn [step]. cbv zeta.
  pose proof (reset_alike_mount w Hw) as Hsim.
  assert (Hstop : intervals (resetState w) = []
                  /\ pollingIntervalRef (resetState w) = None).
  { unfold resetState, and_then. apply stop_polling_stops. apply Hw. }
  split; [|split].
  - rewrite resetState_ui. simpl. tauto.
  - apply Hsim.
  - intros prep uo co n Hprep.
    destruct (inputs_frame prep Hprep (resetState w)) as (Hna & Hwa & Hsa).
    destruct (inputs_frame prep Hprep (mount (Some (apiKey (ui w)))))
      as (Hnb & _ & _).
    rewrite Hna, Hnb, Hwa, Hsa.
    apply (alike_run _ _ _ _ _ _ _ _ (inputs_paired _ _ prep Hprep)) in Hsim.
    apply (alike_run _ _ _ _ _ _ _ _
             (submission_paired (next_request (resetState w)) 0 uo co n))
      in Hsim.
    destruct Hsim as (Hu & Hp & _ & _ & (nw & Hw1 & Hw2) & (ns & Hs1 & Hs2) & _).
    change (next_request (mount (Some (apiKey (ui w))))) with 0.
    rewrite app_nil_r in Hw2, Hs2.
    repeat split; congruence.
Qed.

Lemma completed_world_reachable : reachable completed_world.
Proof. apply reachable_step, ticked_world_reachable. Qed.

(** After the completed poll: reset, type another URL, submit, the job
    queued again. *)
Lemma reset_then_submit_witness :
  status (ui completed_world) = Status.completed
  /\ let w' := step completed_world Reset in
     let fresh := mount (Some (apiKey (ui completed_world))) in
     let prep := [UrlChange "https://x/b.mp3"] in
     let a := run w' prep in
     let b := run fresh prep in
     let uo := NetworkFailure "" in
     let co := HttpOk (Json job_queued) in
     status (ui w') = Status.idle
     /\ ui (run a (firstn 4 (submission (next_request a) uo co)))
        = ui (run b (firstn 4 (submission (next_request b) uo co))).
Proof.
  split; [vm_compute; reflexivity|]. cbv zeta.
  destruct (reset_then_submit completed_world completed_world_reachable
              (or_introl eq_refl))
    as ((_ & _ & Hidle & _) & _ & Hsame).
  split; [exact Hidle|].
  apply (Hsame [UrlChange "https://x/b.mp3"] (NetworkFailure "")
               (HttpOk (Json job_queued)) 4 eq_refl).
Defined.

(** What C7 leaves out: a poll request still in flight at the reset is not
    cancelled by it.  Two ticks in flight, the first answered [completed],
    then a reset: when the second is answered, the idle controller goes to
    [completed] again with the old job. *)
Remark stale_poll_after_reset :
  let w := run ticked_world
             [Tick 1%positive;
              TranscriptSettles 1 (HttpOk (Json job_done)); Reset] in
  status (ui w) = Status.idle
  /\ transcript (ui w) = None
  /\ status (ui (step w (TranscriptSettles 2 (HttpOk (Json job_done)))))
     = Status.completed
  /\ transcript (ui (step w (TranscriptSettles 2 (HttpOk (Json job_done)))))
     = Some job_done.
Proof. vm_compute. repeat split. Qed.

(* ------------------------------------------------------------------ *)
(** ** One step, case by case *)

Ltac crunch :=
  repeat (cbn in *;
          match goal with
          | |- context [match ?x with _ => _ end] => destruct x eqn:?
          end);
  cbn in *.

Ltac open_handlers :=
  unfold handleSubmit, handleCopy, handleUrlChange, handleFileChange,
    resetState, poll_tick, submit_job, submit_then, poll_then, poll_catch,
    submit_catch, pollTranscript, stop_polling, and_then.

Lemma step_key_persisted w e : key_persisted w -> key_persisted (step w e).
Proof.
  unfold key_persisted.
  destruct w as [[key url file tr st err cop] ref ints nh fa nr wi co ls cl ct
                 strc].
  destruct e; cbn [step]; open_handlers; crunch; intros; congruence.
Qed.

Lemma step_copied_expires w e : copied_expires w -> copied_expires (step w e).
Proof.
  unfold copied_expires.
  destruct w as [[key url file tr st err cop] ref ints nh fa nr wi co ls cl ct
                 strc].
  destruct e; cbn [step]; open_handlers; crunch; intros;
    try discriminate; try lia; auto.
Qed.

Lemma client_requests_sound :
  (forall file key req k,
     uploadFile file key = Requested req k -> sound_request req)
  /\ (forall url key req k,
        submitForTranscription url key = Requested req k -> sound_request req)
  /\ (forall job key req k,
        getTranscriptionResult job key = Requested req k -> sound_request req).
Proof.
  unfold uploadFile, submitForTranscription, getTranscriptionResult.
  split; [|split]; intros a key req k0 H;
    destruct (truthy key) eqn:Hkey; cbn [negb] in H; try discriminate;
    injection H as <- _;
    (split; [exists key; split; [exact Hkey | now left]|]);
    (split; [eexists; reflexivity | reflexivity]).
Qed.

Lemma step_sound_wire w e : sound_wire w -> sound_wire (step w e).
Proof.
  unfold sound_wire.
  destruct w as [[key url file tr st err cop] ref ints nh fa nr wi co ls cl ct
                 strc].
  destruct e; cbn [step]; open_handlers; crunch; intros; try assumption.
  all: constructor; [|assumption].
  all: destruct client_requests_sound as (Hu & Hc & Hg);
    first [ eapply Hu; eassumption | eapply Hc; eassumption
          | eapply Hg; eassumption ].
Qed.

Lemma lookup_lt {A} (l : list (nat * A)) n r a :
  Forall (fun e => fst e < n) l -> lookup r l = Some a -> r < n.
Proof.
  induction 1 as [|[r' x] l Hr Hl IH]; simpl; [discriminate|].
  simpl in Hr. destruct (Nat.eqb_spec r r'); [intros _; lia | auto].
Qed.

Lemma or_else_nonempty o fallback : fallback <> "" -> or_else o fallback <> "".
Proof.
  intros Hf. destruct o as [[|c s]|]; simpl; try assumption. discriminate.
Qed.

Ltac parked Hf :=
  repeat match goal with
    | H : _ /\ _ |- _ => destruct H
    | H : exists _, _ |- _ => destruct H
    end;
  repeat match goal with
    | |- _ /\ _ => split; [solve [assumption | reflexivity]|]
    end;
  first
    [ match goal with
      | |- exists r k key,
             (if Nat.eqb r ?n then Some _ else _) = Some _ =>
          solve [exists n; rewrite Nat.eqb_refl; eauto]
      end
    | match goal with
      | H : lookup ?x _ = Some _ |- _ =>
          solve [ exists x; pose proof (lookup_lt _ _ _ _ Hf H);
                  replace (Nat.eqb x _) with false
                    by (symmetry; apply Nat.eqb_neq; lia);
                  eauto ]
      end
    | match goal with
      | H : lookup ?x _ = Some _ |- _ =>
          solve [ exists x; rewrite lookup_filter_out;
                  match goal with
                  | |- context [Nat.eqb x ?r] =>
                      destruct (Nat.eqb_spec x r); [congruence | eauto]
                  end ]
      end ].

Lemma step_coherent w e : Inv w -> coherent w -> coherent (step w e).
Proof.
  unfold Inv, single_timer, sound_in_flight, keyed_intervals, fresh_requests,
    coherent.
  destruct w as [[key url file tr st err cop] ref ints nh fa nr wi co ls cl ct
                 strc].
  cbn [ui status transcript error intervals pollingIntervalRef in_flight
       next_request].
  intros (Ht & Hs & Hk & Hf) Hc. revert Hc.
  destruct e; cbn [step]; open_handlers; crunch; intros; try assumption;
    try (intuition congruence).
  all: try solve [eexists; split; [reflexivity | discriminate]].
  all: try solve [eexists; split;
                  [reflexivity | apply or_else_nonempty; discriminate]].
  all: try solve [eexists; split; [reflexivity | assumption]].
  all: try solve [parked Hf].
  all: match goal with
       | H : lookup _ _ = Some (AwaitSubmit _ _) |- _ =>
           destruct (lookup_Forall sound_suspension _ _ _ H Hs) as [_ Hkey]
       end;
    rewrite Hkey in *; try discriminate.
  all: match type of Ht with
       | ex _ => destruct Ht as [c ->]
       | _ => subst ints
       end;
    cbn; rewrite ?Pos.eqb_refl; cbn;
    eexists _, _, _; repeat split; eauto.
Qed.

Lemma reachable_sound w :
  reachable w ->
  Inv w /\ key_persisted w /\ sound_wire w /\ copied_expires w /\ coherent w.
Proof.
  intros (stored & es & ->). unfold run.
  assert (H0 : Inv (mount stored) /\ key_persisted (mount stored)
               /\ sound_wire (mount stored) /\ copied_expires (mount stored)
               /\ coherent (mount stored)).
  { split; [apply mount_Inv|]. split; [reflexivity|].
    split; [constructor|]. split; [discriminate|]. split; reflexivity. }
  revert H0. generalize (mount stored).
  induction es as [|e es IH]; simpl; intros w Hw; [exact Hw|].
  destruct Hw as (Hi & Hk & Hs & Hc & Hh).
  apply IH. split; [apply step_Inv, Hi|].
  split; [apply step_key_persisted, Hk|].
  split; [apply step_sound_wire, Hs|].
  split; [apply step_copied_expires, Hc|].
  apply step_coherent; assumption.
Qed.

(* ------------------------------------------------------------------ *)
(** ** The key and local storage *)

(** X1.  In every world the event loop reaches, local storage holds the key
    exactly when the key is not empty, and mounting the component again on
    that local storage starts it with the same key. *)
Theorem key_survives_remount :
  forall (stored : option string) (es : list Event),
    let w := run (mount stored) es in
    key_persisted w
    /\ apiKey (ui (mount (localStorage w))) = apiKey (ui w)
    /\ localStorage (mount (localStorage w)) = localStorage w.
Proof.
  intros stored es w.
  assert (Hk : key_persisted w).
  { apply reachable_sound. exists stored, es. reflexivity. }
  split; [exact Hk|]. unfold key_persisted in Hk.
  unfold mount. cbn [ui apiKey localStorage persist_key]. rewrite Hk.
  destruct (apiKey (ui w)) as [|c k]; split; reflexivity.
Qed.

(* ------------------------------------------------------------------ *)
(** ** What goes on the wire *)

(** X2.  Every request the event loop ever puts on the wire carries a
    non-empty key in its [authorization] header and goes to a path under
    the service's base URL; every JSON body asks for language [pt]. *)
Theorem requests_are_well_formed :
  forall (stored : option string) (es : list Event),
    Forall sound_request (wire (run (mount stored) es)).
Proof.
  intros stored es.
  apply (reachable_sound (run (mount stored) es)).
  exists stored, es. reflexivity.
Qed.

(* ------------------------------------------------------------------ *)
(** ** What each status stands on *)

(** X3.  Whenever the controller is in the error state there is a
    non-empty error message, and that message is what the result panel
    shows: the panel's generic line is never needed. *)
Theorem error_state_has_message :
  forall w : World,
    reachable w ->
    status (ui w) = Status.error ->
    exists m, error (ui w) = Some m /\ m <> ""
              /\ result_panel (ui w) = Some m.
Proof.
  intros w Hw Hs.
  destruct (reachable_sound w Hw) as (_ & _ & _ & _ & Hc).
  unfold coherent in Hc. rewrite Hs in Hc. destruct Hc as (m & Hm & Hne).
  exists m. split; [exact Hm|]. split; [exact Hne|].
  unfold result_panel. rewrite Hs, Hm. f_equal.
  apply or_else_verbatim, Hne.
Qed.

Lemma error_state_has_message_witness :
  status (ui refused_world) = Status.error
  /\ exists m, error (ui refused_world) = Some m /\ m <> ""
               /\ result_panel (ui refused_world) = Some m.
Proof.
  assert (Hs : status (ui refused_world) = Status.error)
    by (vm_compute; reflexivity).
  split; [exact Hs|].
  exact (error_state_has_message refused_world refused_world_reachable Hs).
Defined.

(** X4.  Whenever the controller is in the polling state, exactly one
    timer runs, the ref names it, it polls the job on display with a
    non-empty key, and that job is queued or processing. *)
Theorem polling_state_has_timer :
  forall w : World,
    reachable w ->
    status (ui w) = Status.polling ->
    exists h job key,
      transcript (ui w) = Some job
      /\ (t_status job = TranscriptStatus.queued
          \/ t_status job = TranscriptStatus.processing)
      /\ intervals w = [(h, (id job, key))]
      /\ pollingIntervalRef w = Some h
      /\ truthy key = true.
Proof.
  intros w Hw Hs.
  destruct (reachable_sound w Hw) as ((_ & _ & Hk & _) & _ & _ & _ & Hc).
  unfold coherent in Hc. rewrite Hs in Hc.
  destruct Hc as (h & job & key & Ht & Hq & Hi & Hr).
  exists h, job, key. repeat split; try assumption.
  unfold keyed_intervals in Hk. rewrite Hi in Hk.
  inversion Hk; subst. assumption.
Qed.

Lemma polling_state_has_timer_witness :
  status (ui ticked_world) = Status.polling
  /\ exists h job key,
       transcript (ui ticked_world) = Some job
       /\ (t_status job = TranscriptStatus.queued
           \/ t_status job = TranscriptStatus.processing)
       /\ intervals ticked_world = [(h, (id job, key))]
       /\ pollingIntervalRef ticked_world = Some h
       /\ truthy key = true.
Proof.
  assert (Hs : status (ui ticked_world) = Status.polling)
    by (vm_compute; reflexivity).
  split; [exact Hs|].
  exact (polling_state_has_timer ticked_world ticked_world_reachable Hs).
Defined.

(** X5.  The controller shows [uploading] only while an upload is in
    flight for a submission (and then no job and no error are set), and
    [submitting] only while a job creation is in flight. *)
Theorem busy_state_has_request :
  forall w : World,
    reachable w ->
    (status (ui w) = Status.uploading ->
     transcript (ui w) = None /\ error (ui w) = None
     /\ exists r k key, lookup r (in_flight w) = Some (AwaitUpload k key))
    /\ (status (ui w) = Status.submitting ->
        exists r k key, lookup r (in_flight w) = Some (AwaitSubmit k key)).
Proof.
  intros w Hw.
  destruct (reachable_sound w Hw) as (_ & _ & _ & _ & Hc).
  unfold coherent in Hc.
  split; intros Hs; rewrite Hs in Hc; exact Hc.
Qed.

(** X6.  Whenever the controller is in the completed state the job on
    display has status [completed], and the result panel shows its text
    when it has a non-empty one and nothing otherwise; whenever it is idle
    there is no job and no error. *)
Theorem settled_state_has_job :
  forall w : World,
    reachable w ->
    (status (ui w) = Status.completed ->
     exists job,
       transcript (ui w) = Some job
       /\ t_status job = TranscriptStatus.completed
       /\ result_panel (ui w)
          = if truthy_opt (text job) then text job else None)
    /\ (status (ui w) = Status.idle ->
        transcript (ui w) = None /\ error (ui w) = None).
Proof.
  intros w Hw.
  destruct (reachable_sound w Hw) as (_ & _ & _ & _ & Hc).
  unfold coherent in Hc.
  split; intros Hs; rewrite Hs in Hc; [|exact Hc].
  destruct Hc as (job & Ht & Hj). exists job.
  split; [exact Ht|]. split; [exact Hj|].
  unfold result_panel. rewrite Hs, Ht. reflexivity.
Qed.

Lemma settled_state_has_job_witness :
  status (ui completed_world) = Status.completed
  /\ exists job,
       transcript (ui completed_world) = Some job
       /\ t_status job = TranscriptStatus.completed
       /\ result_panel (ui completed_world)
          = if truthy_opt (text job) then text job else None.
Proof.
  assert (Hs : status (ui completed_world) = Status.completed)
    by (vm_compute; reflexivity).
  split; [exact Hs|].
  exact (proj1 (settled_state_has_job completed_world
                  completed_world_reachable) Hs).
Defined.

Lemma uploading_world_reachable : reachable uploading_world.
Proof. apply reachable_run, reachable_mount. Qed.

Lemma busy_state_has_request_witness :
  status (ui uploading_world) = Status.uploading
  /\ exists r k key,
       lookup r (in_flight uploading_world) = Some (AwaitUpload k key).
Proof.
  assert (Hs : status (ui uploading_world) = Status.uploading)
    by (vm_compute; reflexivity).
  split; [exact Hs|].
  apply (proj1 (busy_state_has_request uploading_world
                  uploading_world_reachable) Hs).
Defined.

(* ------------------------------------------------------------------ *)
(** ** Starting a submission *)

Lemma cons_neq {A} (x : A) (l : list A) : x :: l <> l.
Proof.
  intros H. apply (f_equal (@length A)) in H. simpl in H. lia.
Qed.

(** X7.  [handleSubmit] puts a request on the wire exactly when the submit
    button is enabled: with the button disabled the wire is left as it is,
    with the button enabled it is not. *)
Theorem submit_button_matches_handler :
  forall w : World,
    submit_disabled (ui w) = true <-> wire (step w Submit) = wire w.
Proof.
  intros [[key url file tr st err cop] ref ints nh fa nr wi co ls cl ct strc].
  unfold submit_disabled, isReadyToSubmit, has_file.
  cbn [step]. unfold handleSubmit, submit_job, uploadFile,
    submitForTranscription, and_then. cbn.
  destruct key as [|c key], url as [|c' url], file as [f|], st; cbn;
    split; intros H; try reflexivity; try discriminate;
    exfalso; exact (cons_neq _ _ H).
Qed.

(** X8.  With a non-empty key and no job in flight, a submit with a file
    selected issues exactly the upload of that file under the current key,
    shows [uploading] and parks the submission on that request; with no
    file and a non-empty URL it issues exactly the job creation for that
    URL and shows [submitting].  Either way the previous job, the previous
    error and the copied mark are cleared and the timers are left alone,
    whatever non-busy state the controller was in. *)
Theorem submit_starts :
  forall w : World,
    truthy (apiKey (ui w)) = true ->
    isProcessing (status (ui w)) = false ->
    let key := apiKey (ui w) in
    let w' := step w Submit in
    (forall f,
       selectedFile (ui w) = Some f ->
       exists req k,
         uploadFile f key = Requested req k
         /\ wire w' = req :: wire w
         /\ status (ui w') = Status.uploading
         /\ in_flight w' = (next_request w, AwaitUpload k key) :: in_flight w)
    /\ (selectedFile (ui w) = None ->
        truthy (audioUrl (ui w)) = true ->
        exists req k,
          submitForTranscription (audioUrl (ui w)) key = Requested req k
          /\ wire w' = req :: wire w
          /\ status (ui w') = Status.submitting
          /\ in_flight w' = (next_request w, AwaitSubmit k key) :: in_flight w)
    /\ (has_file (ui w) || truthy (audioUrl (ui w)) = true ->
        transcript (ui w') = None
        /\ error (ui w') = None
        /\ isCopied (ui w') = false
        /\ intervals w' = intervals w
        /\ pollingIntervalRef w' = pollingIntervalRef w
        /\ apiKey (ui w') = key
        /\ audioUrl (ui w') = audioUrl (ui w)
        /\ selectedFile (ui w') = selectedFile (ui w)).
Proof.
  intros [[key url file tr st err cop] ref ints nh fa nr wi co ls cl ct strc].
  cbn [ui apiKey status selectedFile audioUrl wire in_flight next_request
       intervals pollingIntervalRef has_file].
  intros Hkey Hst. cbv zeta. cbn [step].
  unfold handleSubmit, submit_job, uploadFile, submitForTranscription,
    and_then.
  cbn [ui apiKey status selectedFile audioUrl]. rewrite Hkey, Hst.
  cbn [negb]. rewrite orb_false_r.
  split; [|split].
  - intros f ->. cbn. rewrite andb_false_r. cbn.
    eexists _, _. repeat split.
  - intros -> Hurl. rewrite Hurl. cbn. eexists _, _. repeat split.
  - destruct file as [f|]; cbn.
    + intros _. rewrite andb_false_r. cbn. repeat split.
    + intros ->. cbn. repeat split.
Qed.

Lemma submit_starts_witness :
  let w := run (mount (Some "k1")) [UrlChange "https://x/a.mp3"] in
  truthy (apiKey (ui w)) = true
  /\ isProcessing (status (ui w)) = false
  /\ exists req k,
       submitForTranscription (audioUrl (ui w)) (apiKey (ui w))
       = Requested req k
       /\ wire (step w Submit) = req :: wire w
       /\ status (ui (step w Submit)) = Status.submitting
       /\ in_flight (step w Submit)
          = (next_request w, AwaitSubmit k (apiKey (ui w))) :: in_flight w.
Proof.
  split; [reflexivity|]. split; [reflexivity|].
  apply (submit_starts (run (mount (Some "k1")) [UrlChange "https://x/a.mp3"])
           eq_refl eq_refl); reflexivity.
Defined.

(** X9.  When the upload a submission awaits succeeds, the controller
    issues exactly the job creation for the URL the upload returned, under
    the key the submission was made with, shows [submitting], retires the
    upload and parks the submission on the new request; the URL cell and
    the timers are left alone. *)
Theorem upload_then_create :
  forall (w : World) (r : nat) (o : fetch_outcome string) k key url,
    reachable w ->
    lookup r (in_flight w) = Some (AwaitUpload k key) ->
    k o = Resolved url ->
    let w' := step w (UploadSettles r o) in
    exists req k',
      submitForTranscription url key = Requested req k'
      /\ req_body req = JsonBody (mkParams url (Some "pt"))
      /\ In ("authorization", key) (req_headers req)
      /\ wire w' = req :: wire w
      /\ status (ui w') = Status.submitting
      /\ lookup r (in_flight w') = None
      /\ lookup (next_request w) (in_flight w')
         = Some (AwaitSubmit k' key)
      /\ audioUrl (ui w') = audioUrl (ui w)
      /\ intervals w' = intervals w.
Proof.
  intros w r o k key url Hw Hl Hk.
  destruct (reachable_Inv w Hw) as (_ & Hs & _ & Hf).
  destruct (lookup_Forall sound_suspension r _ _ Hl Hs) as [_ Hkey].
  pose proof (lookup_lt _ _ _ _ Hf Hl) as Hlt.
  cbv zeta. cbn [step]. rewrite Hl. unfold and_then at 1. rewrite Hk.
  unfold submit_job, submitForTranscription, and_then. rewrite Hkey.
  cbn [negb]. eexists _, _. split; [reflexivity|].
  split; [reflexivity|]. split; [now left|].
  cbn. rewrite Nat.eqb_refl, lookup_filter_out, Nat.eqb_refl.
  replace (Nat.eqb r (next_request w)) with false
    by (symmetry; apply Nat.eqb_neq; lia).
  repeat split.
Qed.

Lemma upload_then_create_witness :
  let w' := step uploading_world
              (UploadSettles 0 (HttpOk (Json "https://cdn/u1"))) in
  exists req k',
    submitForTranscription "https://cdn/u1" "k1" = Requested req k'
    /\ wire w' = req :: wire uploading_world
    /\ status (ui w') = Status.submitting.
Proof.
  destruct (upload_then_create uploading_world 0
              (HttpOk (Json "https://cdn/u1")) uploadFile_response "k1"
              "https://cdn/u1" uploading_world_reachable eq_refl eq_refl)
    as (req & k' & Hreq & _ & _ & Hwire & Hst & _).
  exists req, k'. split; [exact Hreq|]. split; [exact Hwire | exact Hst].
Defined.

Lemma submit_button_matches_handler_witness :
  submit_disabled (ui polling_world) = true
  /\ wire (step polling_world Submit) = wire polling_world.
Proof.
  assert (H : submit_disabled (ui polling_world) = true)
    by (vm_compute; reflexivity).
  split; [exact H|].
  exact (proj1 (submit_button_matches_handler polling_world) H).
Defined.

(* ------------------------------------------------------------------ *)
(** ** How a submission ends *)

Lemma submit_catch_spec err w :
  let w' := submit_catch err w in
  status (ui w') = Status.error
  /\ error (ui w')
     = Some ("Falha ao enviar a solicitação: " ++ thrown_message err)
  /\ console w' = err :: console w
  /\ wire w' = wire w
  /\ intervals w' = intervals w
  /\ pollingIntervalRef w' = pollingIntervalRef w
  /\ transcript (ui w') = transcript (ui w).
Proof. destruct err; repeat split. Qed.

(** X10.  When the upload or the job creation a submission awaits fails,
    the controller goes to the error state and shows
    [Falha ao enviar a solicitação: ] followed by the thrown error's
    message; the error is logged, no request is issued and no timer is
    touched.  So when the service answered a failure status with its JSON
    error object, the message on screen carries the status code and the
    service's message. *)
Theorem submission_failure_shown :
  forall (w : World) (r : nat),
    reachable w ->
    (forall o k key err,
       lookup r (in_flight w) = Some (AwaitUpload k key) ->
       k o = Threw err ->
       let w' := step w (UploadSettles r o) in
       status (ui w') = Status.error
       /\ error (ui w')
          = Some ("Falha ao enviar a solicitação: " ++ thrown_message err)
       /\ console w' = err :: console w
       /\ wire w' = wire w
       /\ intervals w' = intervals w
       /\ (forall code txt m,
             o = HttpError code txt (Json (Some m)) ->
             shows_service_error w' code m))
    /\ (forall o k key err,
          lookup r (in_flight w) = Some (AwaitSubmit k key) ->
          k o = Threw err ->
          let w' := step w (TranscriptSettles r o) in
          status (ui w') = Status.error
          /\ error (ui w')
             = Some ("Falha ao enviar a solicitação: " ++ thrown_message err)
          /\ console w' = err :: console w
          /\ wire w' = wire w
          /\ intervals w' = intervals w
          /\ (forall code txt m,
                o = HttpError code txt (Json (Some m)) ->
                shows_service_error w' code m)).
Proof.
  intros w r Hw.
  destruct (reachable_Inv w Hw) as (_ & Hs & _ & _).
  split; intros o k key err Hl Hk;
    destruct (lookup_Forall sound_suspension r _ _ Hl Hs) as [-> _];
    cbv zeta; cbn [step]; rewrite Hl; unfold and_then at 1; rewrite Hk;
    destruct (submit_catch_spec err (settle r w))
      as (Hst & Herr & Hco & Hwi & Hin & _);
    (split; [exact Hst|]); (split; [exact Herr|]); (split; [exact Hco|]);
    (split; [exact Hwi|]); (split; [exact Hin|]);
    intros code txt m ->; cbn in Hk; injection Hk as <-;
    eexists; (split; [exact Herr|]); cbn [thrown_message].
  - destruct (Carries_api_error "API Error while uploading: " code txt
                (or_else (Some m) "Unknown upload error")) as [Hc Hm].
    split; [apply Carries_app_l, Hc|].
    unfold or_else in Hm. destruct (truthy m) eqn:Ht.
    + apply Carries_app_l, Hm.
    + apply truthy_empty in Ht. subst m. exists "". eexists. reflexivity.
  - destruct (Carries_api_error "API Error: " code txt m) as [Hc Hm].
    split; apply Carries_app_l; assumption.
Qed.

Lemma submission_failure_shown_witness :
  let w := run (mount (Some "k1")) [UrlChange "https://x/a.mp3"; Submit] in
  let w' := step w (TranscriptSettles 0
                      (HttpError 401 "Unauthorized"
                         (Json (Some "Invalid API key")))) in
  status (ui w') = Status.error
  /\ error (ui w')
     = Some ("Falha ao enviar a solicitação: "
             ++ "API Error: 401 Unauthorized - Invalid API key").
Proof.
  destruct (proj2 (submission_failure_shown
                     (run (mount (Some "k1"))
                          [UrlChange "https://x/a.mp3"; Submit]) 0
                     (reachable_run _ _ (reachable_mount _)))
              (HttpError 401 "Unauthorized" (Json (Some "Invalid API key")))
              transcript_response "k1"
              (ErrorObj "API Error: 401 Unauthorized - Invalid API key")
              eq_refl eq_refl)
    as (Hst & Herr & _).
  split; [exact Hst | exact Herr].
Defined.

(** X11.  When the job creation resolves to a job whose status is already
    [error], the controller publishes the job, goes to the error state and
    shows the job's error message, or [Erro ao submeter o áudio.] when the
    job has none or an empty one; no timer is scheduled and no request is
    issued. *)
Theorem created_with_error :
  forall (w : World) (r : nat) (o : fetch_outcome Transcript) k key job,
    lookup r (in_flight w) = Some (AwaitSubmit k key) ->
    k o = Resolved job ->
    t_status job = TranscriptStatus.error ->
    let w' := step w (TranscriptSettles r o) in
    status (ui w') = Status.error
    /\ transcript (ui w') = Some job
    /\ error (ui w')
       = Some (or_else (t_error job) "Erro ao submeter o áudio.")
    /\ (forall m, t_error job = Some m -> m <> "" -> error (ui w') = Some m)
    /\ intervals w' = intervals w
    /\ pollingIntervalRef w' = pollingIntervalRef w
    /\ wire w' = wire w.
Proof.
  intros w r o k key job Hl Hk Hs. cbv zeta. cbn [step]. rewrite Hl.
  unfold and_then at 1. rewrite Hk. unfold submit_then. rewrite Hs.
  repeat split.
  intros m Hm Hne. cbn. rewrite Hm, (or_else_verbatim m _ Hne). reflexivity.
Qed.

Lemma created_with_error_witness :
  let w := run (mount (Some "k1")) [UrlChange "https://x/a.mp3"; Submit] in
  let w' := step w (TranscriptSettles 0 (HttpOk (Json job_failed))) in
  status (ui w') = Status.error
  /\ error (ui w') = Some "Download error, file not found"
  /\ intervals w' = [].
Proof.
  destruct (created_with_error
              (run (mount (Some "k1")) [UrlChange "https://x/a.mp3"; Submit])
              0 (HttpOk (Json job_failed)) transcript_response "k1" job_failed
              eq_refl eq_refl eq_refl)
    as (Hst & _ & Herr & _ & Hin & _).
  split; [exact Hst|]. split; [exact Herr | exact Hin].
Defined.

(* ------------------------------------------------------------------ *)
(** ** Ticks and their answers *)

(** X12.  When the request of a poll tick resolves to a completed job, the
    controller stops the timer (none runs afterwards), publishes the job
    and goes to [completed]; the result panel shows the job's text when it
    has a non-empty one and nothing otherwise.  The error cell is left as
    it was. *)
Theorem poll_completed :
  forall (w : World) (r : nat) (o : fetch_outcome Transcript) k job,
    reachable w ->
    lookup r (in_flight w) = Some (AwaitResult k) ->
    k o = Resolved job ->
    t_status job = TranscriptStatus.completed ->
    let w' := step w (TranscriptSettles r o) in
    intervals w' = []
    /\ pollingIntervalRef w' = None
    /\ status (ui w') = Status.completed
    /\ transcript (ui w') = Some job
    /\ result_panel (ui w')
       = (if truthy_opt (text job) then text job else None)
    /\ error (ui w') = error (ui w)
    /\ wire w' = wire w.
Proof.
  intros w r o k job Hw Hl Hk Hs. cbv zeta. cbn [step]. rewrite Hl.
  unfold and_then at 1. rewrite Hk. unfold poll_then. rewrite Hs.
  apply reachable_Inv in Hw.
  destruct (keeps_settle r w Hw) as (Ht & _).
  destruct (stop_polling_stops _ Ht) as [Hi Hr].
  destruct (stop_polling_frame (settle r w)) as (_ & Hu & Hwi & _).
  unfold and_then, result_panel. cbn. rewrite Hi, Hr, Hu, Hwi.
  repeat split.
Qed.

Lemma poll_completed_witness :
  let w' := step ticked_world (TranscriptSettles 1 (HttpOk (Json job_done))) in
  intervals w' = []
  /\ status (ui w') = Status.completed
  /\ result_panel (ui w') = Some "hello".
Proof.
  destruct (poll_completed ticked_world 1 (HttpOk (Json job_done))
              transcript_response job_done ticked_world_reachable
              eq_refl eq_refl eq_refl)
    as (Hi & _ & Hs & _ & Hp & _).
  split; [exact Hi|]. split; [exact Hs | exact Hp].
Defined.

(** X13.  When the request of a poll tick resolves to a job that is still
    queued or processing, nothing the user sees changes: the cells, the
    timers, the ref, the wire, the console and the status record are as
    before; only the answered request is retired. *)
Theorem poll_still_running :
  forall (w : World) (r : nat) (o : fetch_outcome Transcript) k job,
    lookup r (in_flight w) = Some (AwaitResult k) ->
    k o = Resolved job ->
    t_status job = TranscriptStatus.queued
    \/ t_status job = TranscriptStatus.processing ->
    let w' := step w (TranscriptSettles r o) in
    ui w' = ui w
    /\ intervals w' = intervals w
    /\ pollingIntervalRef w' = pollingIntervalRef w
    /\ wire w' = wire w
    /\ console w' = console w
    /\ status_trace w' = status_trace w
    /\ lookup r (in_flight w') = None.
Proof.
  intros w r o k job Hl Hk Hs. cbv zeta. cbn [step]. rewrite Hl.
  unfold and_then at 1. rewrite Hk. unfold poll_then.
  destruct Hs as [-> | ->]; cbn; rewrite lookup_filter_out, Nat.eqb_refl;
    repeat split.
Qed.

Lemma poll_still_running_witness :
  let w' := step ticked_world
              (TranscriptSettles 1 (HttpOk (Json job_queued))) in
  ui w' = ui ticked_world /\ intervals w' = intervals ticked_world.
Proof.
  destruct (poll_still_running ticked_world 1 (HttpOk (Json job_queued))
              transcript_response job_queued eq_refl eq_refl
              (or_introl eq_refl))
    as (Hu & Hi & _).
  split; [exact Hu | exact Hi].
Defined.

(** X14.  A tick of a running timer issues exactly one request, the fetch
    of the job the timer was scheduled for under the key it was scheduled
    with (whatever the key cell holds by then), and changes no cell and no
    timer; a tick of a handle that is not running does nothing. *)
Theorem tick_polls_scheduled_job :
  forall (w : World) (h : positive),
    reachable w ->
    (forall job key,
       lookup_handle h (intervals w) = Some (job, key) ->
       let w' := step w (Tick h) in
       exists req k,
         getTranscriptionResult job key = Requested req k
         /\ In ("authorization", key) (req_headers req)
         /\ wire w' = req :: wire w
         /\ in_flight w' = (next_request w, AwaitResult k) :: in_flight w
         /\ ui w' = ui w
         /\ intervals w' = intervals w
         /\ pollingIntervalRef w' = pollingIntervalRef w)
    /\ (lookup_handle h (intervals w) = None -> step w (Tick h) = w).
Proof.
  intros w h Hw. destruct (reachable_Inv w Hw) as (_ & _ & Hk & _).
  split.
  - intros job key Hl. cbv zeta. cbn [step]. rewrite Hl.
    assert (Hkey : truthy key = true).
    { apply lookup_handle_In in Hl. unfold keyed_intervals in Hk.
      rewrite Forall_forall in Hk. exact (Hk _ Hl). }
    unfold poll_tick, getTranscriptionResult. rewrite Hkey. cbn [negb].
    eexists _, _. split; [reflexivity|]. split; [now left|].
    repeat split.
  - intros Hl. cbn [step]. rewrite Hl. reflexivity.
Qed.

(** The key is changed while the poll is on; the tick still uses [k1]. *)
Lemma tick_polls_scheduled_job_witness :
  let w := step polling_world (ApiKeyChange "k2") in
  apiKey (ui w) = "k2"
  /\ exists req k,
       getTranscriptionResult "t1" "k1" = Requested req k
       /\ In ("authorization", "k1") (req_headers req)
       /\ wire (step w (Tick 1%positive)) = req :: wire w.
Proof.
  split; [vm_compute; reflexivity|].
  destruct (proj1 (tick_polls_scheduled_job
                     (step polling_world (ApiKeyChange "k2")) 1%positive
                     (reachable_step _ _
                        (reachable_run _ _ (reachable_mount _))))
              "t1" "k1" eq_refl)
    as (req & k & Hreq & Hauth & Hwire & _).
  exists req, k. split; [exact Hreq|]. split; [exact Hauth | exact Hwire].
Defined.

(* ------------------------------------------------------------------ *)
(** ** Where the job on display comes from *)

Lemma transcript_response_resolved o job :
  transcript_response o = Resolved job -> o = HttpOk (Json job).
Proof.
  destruct o as [m|code txt [e|m]|[t|m]]; simpl; intros H;
    try discriminate. injection H as ->. reflexivity.
Qed.

Lemma step_transcript_origin w e job :
  Inv w ->
  transcript (ui (step w e)) = Some job ->
  transcript (ui w) = Some job
  \/ exists r, e = TranscriptSettles r (HttpOk (Json job)).
Proof.
  unfold Inv, sound_in_flight.
  destruct w as [[key url file tr st err cop] ref ints nh fa nr wi co ls cl ct
                 strc].
  cbn [ui transcript in_flight].
  intros (_ & Hs & _ & _).
  destruct e; cbn [step]; open_handlers; crunch; intros;
    try discriminate; try (left; assumption).
  all: match goal with
       | H : lookup _ _ = Some _ |- _ =>
           pose proof (lookup_Forall sound_suspension _ _ _ H Hs) as Hk
       end;
    cbn in Hk;
    match type of Hk with
    | _ /\ _ => destruct Hk as [Hk _]
    | _ => idtac
    end; subst;
    match goal with
    | H : transcript_response _ = Resolved _ |- _ =>
        apply transcript_response_resolved in H; subst
    end;
    match goal with
    | |- _ \/ exists _, TranscriptSettles ?r _ = _ =>
        right; exists r; congruence
    end.
Qed.

(** X16.  The job on display always is the payload of a successful,
    well-formed answer of the service: whenever the transcript cell holds a
    job, the events so far include the settling of a job creation or of a
    poll with [response.ok] and that very job as its JSON body.  Nothing
    from a failed response or a thrown error is ever published as a job. *)
Theorem displayed_job_was_served :
  forall (stored : option string) (es : list Event) (job : Transcript),
    transcript (ui (run (mount stored) es)) = Some job ->
    exists r, In (TranscriptSettles r (HttpOk (Json job))) es.
Proof.
  intros stored es. induction es as [|e es IH] using rev_ind; intros job.
  - discriminate.
  - unfold run. rewrite fold_left_app. cbn [fold_left]. fold (run (mount stored) es).
    intros H.
    destruct (step_transcript_origin _ _ _
                (run_Inv es _ (mount_Inv stored)) H) as [Hold | [r ->]].
    + destruct (IH job Hold) as [r Hr]. exists r.
      apply in_or_app. now left.
    + exists r. apply in_or_app. right. now left.
Qed.

Lemma displayed_job_was_served_witness :
  transcript (ui completed_world) = Some job_done
  /\ exists r,
       In (TranscriptSettles r (HttpOk (Json job_done)))
          [UrlChange "https://x/a.mp3"; Submit;
           TranscriptSettles 0 (HttpOk (Json job_queued)); Tick 1%positive;
           TranscriptSettles 1 (HttpOk (Json job_done))].
Proof.
  split; [vm_compute; reflexivity|].
  apply (displayed_job_was_served (Some "k1")).
  vm_compute. reflexivity.
Defined.

(* ------------------------------------------------------------------ *)
(** ** The copied mark *)

(** X15.  The copied mark never sticks: in every world the event loop
    reaches, the mark is up only while a timeout is pending, and the next
    timeout lowers it.  A copy puts the transcript's text on the clipboard
    and raises the mark when that text is not empty, and does nothing at
    all when there is no transcript or its text is null or empty. *)
Theorem copied_mark_expires :
  forall (stored : option string) (es : list Event),
    let w := run (mount stored) es in
    (isCopied (ui w) = true ->
     0 < copy_timeouts w /\ isCopied (ui (step w CopyTimeout)) = false)
    /\ (forall t s,
          transcript (ui w) = Some t -> text t = Some s -> s <> "" ->
          clipboard (step w Copy) = Some s
          /\ isCopied (ui (step w Copy)) = true
          /\ copy_timeouts (step w Copy) = S (copy_timeouts w))
    /\ ((forall t, transcript (ui w) = Some t -> truthy_opt (text t) = false)
        -> step w Copy = w).
Proof.
  intros stored es w.
  assert (Hc : copied_expires w).
  { apply reachable_sound. exists stored, es. reflexivity. }
  split; [|split].
  - intros H. specialize (Hc H). split; [exact Hc|].
    cbn [step]. destruct (copy_timeouts w); [lia | reflexivity].
  - intros t s Ht Hs Hne. cbn [step]. unfold handleCopy. rewrite Ht, Hs.
    destruct s as [|c s]; [congruence|]. repeat split.
  - intros H. cbn [step]. unfold handleCopy.
    destruct (transcript (ui w)) as [t|]; [|reflexivity].
    rewrite (H t eq_refl). reflexivity.
Qed.

Lemma copied_mark_expires_witness :
  let w := run (mount (Some "k1"))
               [UrlChange "https://x/a.mp3"; Submit;
                TranscriptSettles 0 (HttpOk (Json job_done)); Copy] in
  isCopied (ui w) = true
  /\ 0 < copy_timeouts w
  /\ isCopied (ui (step w CopyTimeout)) = false.
Proof.
  cbv zeta.
  assert (H : isCopied
                (ui (run (mount (Some "k1"))
                         [UrlChange "https://x/a.mp3"; Submit;
                          TranscriptSettles 0 (HttpOk (Json job_done)); Copy]))
              = true)
    by (vm_compute; reflexivity).
  split; [exact H|].
  exact (proj1 (copied_mark_expires (Some "k1")
                  [UrlChange "https://x/a.mp3"; Submit;
                   TranscriptSettles 0 (HttpOk (Json job_done)); Copy]) H).
Defined.

(* ------------------------------------------------------------------ *)
(** ** Whole submissions *)

(** X17.  From the component as mounted: a non-empty key, a non-empty URL,
    a submit, the job creation answered with a queued or processing job,
    one tick, the poll answered with a completed job.  The controller ends
    in [completed] with that job published, no timer running and nothing
    in flight, having shown [submitting], [polling], [completed] in that
    order and issued exactly two requests: the creation for the URL and
    the fetch of the created job's id, both under the key. *)
Theorem url_submission_runs_through :
  forall (stored : option string) (key url : string)
         (waiting done : Transcript),
    truthy key = true ->
    truthy url = true ->
    t_status waiting = TranscriptStatus.queued
    \/ t_status waiting = TranscriptStatus.processing ->
    t_status done = TranscriptStatus.completed ->
    let w := run (mount stored)
               [ApiKeyChange key; UrlChange url; Submit;
                TranscriptSettles 0 (HttpOk (Json waiting));
                Tick 1%positive;
                TranscriptSettles 1 (HttpOk (Json done))] in
    status (ui w) = Status.completed
    /\ transcript (ui w) = Some done
    /\ intervals w = []
    /\ in_flight w = []
    /\ status_trace w
       = [Status.completed; Status.polling; Status.submitting]
    /\ exists create fetch k k',
         submitForTranscription url key = Requested create k
         /\ getTranscriptionResult (id waiting) key = Requested fetch k'
         /\ wire w = [fetch; create].
Proof.
  intros stored key url [wid wurl wst wtext werr] [did durl dst dtext derr]
         Hkey Hurl Hw Hd.
  destruct key as [|c key]; [discriminate|].
  destruct url as [|c' url]; [discriminate|].
  cbn [t_status] in Hw, Hd. subst dst.
  destruct Hw as [-> | ->]; vm_compute;
    (repeat split; eexists _, _, _, _; repeat split).
Qed.

Lemma url_submission_runs_through_witness :
  truthy "k1" = true
  /\ status
       (ui (run (mount None)
                [ApiKeyChange "k1"; UrlChange "https://x/a.mp3"; Submit;
                 TranscriptSettles 0 (HttpOk (Json job_queued));
                 Tick 1%positive;
                 TranscriptSettles 1 (HttpOk (Json job_done))]))
     = Status.completed.
Proof.
  split; [reflexivity|].
  apply (url_submission_runs_through None "k1" "https://x/a.mp3"
           job_queued job_done eq_refl eq_refl (or_introl eq_refl) eq_refl).
Defined.

(** X18.  From the component as mounted: a non-empty key, a file, a
    submit, the key changed while the upload is in flight, the upload
    answered with a URL, the job creation answered with a completed job.
    The submission goes on under the key it was started with: the
    controller issues exactly the upload of the file and then the creation
    for the returned URL, both under the first key, shows [uploading],
    [submitting], [completed] in that order, schedules no timer and ends
    with the job published. *)
Theorem file_submission_keeps_its_key :
  forall (stored : option string) (key other : string) (file : File)
         (upload_url : string) (done : Transcript),
    truthy key = true ->
    t_status done = TranscriptStatus.completed ->
    let w := run (mount stored)
               [ApiKeyChange key; FileChange (Some file); Submit;
                ApiKeyChange other;
                UploadSettles 0 (HttpOk (Json upload_url));
                TranscriptSettles 1 (HttpOk (Json done))] in
    status (ui w) = Status.completed
    /\ transcript (ui w) = Some done
    /\ apiKey (ui w) = other
    /\ intervals w = []
    /\ in_flight w = []
    /\ status_trace w
       = [Status.completed; Status.submitting; Status.uploading]
    /\ exists upload create k k',
         uploadFile file key = Requested upload k
         /\ submitForTranscription upload_url key = Requested create k'
         /\ wire w = [create; upload].
Proof.
  intros stored key other file upload_url [did durl dst dtext derr] Hkey Hd.
  destruct key as [|c key]; [discriminate|].
  cbn [t_status] in Hd. subst dst.
  vm_compute. repeat split. eexists _, _, _, _. repeat split.
Qed.

Lemma file_submission_keeps_its_key_witness :
  truthy "k1" = true
  /\ apiKey
       (ui (run (mount None)
                [ApiKeyChange "k1"; FileChange (Some (mkFile "a.mp3" "riff"));
                 Submit; ApiKeyChange "k2";
                 UploadSettles 0 (HttpOk (Json "https://cdn/u1"));
                 TranscriptSettles 1 (HttpOk (Json job_done))]))
     = "k2".
Proof.
  split; [reflexivity|].
  apply (file_submission_keeps_its_key None "k1" "k2" (mkFile "a.mp3" "riff")
           "https://cdn/u1" job_done eq_refl eq_refl).
Defined.

(* ------------------------------------------------------------------ *)
(** ** Unmounting, the inputs, and requests that outlive a reset *)

(** X19.  Unmounting the component in any world the event loop reaches
    clears the running poll timer: right after it no timer runs and a tick
    does nothing.  It changes no cell, leaves the ref as it is and cancels
    no request in flight; so a job creation still in flight at the
    unmount, once answered with a queued or processing job, schedules a
    poll timer after the unmount. *)
Theorem unmount_clears_timer :
  forall (w : World) (h : positive),
    reachable w ->
    intervals (unmount w) = []
    /\ step (unmount w) (Tick h) = unmount w
    /\ ui (unmount w) = ui w
    /\ pollingIntervalRef (unmount w) = pollingIntervalRef w
    /\ in_flight (unmount w) = in_flight w
    /\ (forall r o k key job,
          lookup r (in_flight w) = Some (AwaitSubmit k key) ->
          k o = Resolved job ->
          t_status job = TranscriptStatus.queued
          \/ t_status job = TranscriptStatus.processing ->
          intervals (step (unmount w) (TranscriptSettles r o))
          = [(next_handle w, (id job, key))]).
Proof.
  intros w h Hw. destruct (reachable_Inv w Hw) as (Ht & Hs & _).
  assert (Hi : intervals (unmount w) = []).
  { unfold unmount, single_timer in *.
    destruct (pollingIntervalRef w) as [p|]; [|exact Ht].
    destruct Ht as [c Hc]. unfold clearInterval. cbn. rewrite Hc. cbn.
    rewrite Pos.eqb_refl. reflexivity. }
  assert (Hframe : ui (unmount w) = ui w
                   /\ pollingIntervalRef (unmount w) = pollingIntervalRef w
                   /\ in_flight (unmount w) = in_flight w
                   /\ next_handle (unmount w) = next_handle w).
  { unfold unmount. destruct (pollingIntervalRef w) eqn:E;
      repeat split; cbn; congruence. }
  destruct Hframe as (Hu & Hr & Hf & Hn).
  split; [exact Hi|]. split; [cbn [step]; rewrite Hi; reflexivity|].
  split; [exact Hu|]. split; [exact Hr|]. split; [exact Hf|].
  intros r o k key job Hl Hk Hq.
  destruct (lookup_Forall sound_suspension r _ _ Hl Hs) as [_ Hkey].
  cbn [step]. rewrite Hf, Hl. unfold and_then at 1. rewrite Hk.
  unfold submit_then, pollTranscript.
  destruct Hq as [-> | ->]; unfold and_then; rewrite Hkey; cbn -[unmount];
    destruct (pollingIntervalRef (unmount w)); cbn -[unmount];
    rewrite Hi, Hn; reflexivity.
Qed.

(** The poll is on, then the unmount; and an unmount while the creation
    is in flight, answered queued afterwards. *)
Lemma unmount_clears_timer_witness :
  intervals polling_world = [(1%positive, ("t1", "k1"))]
  /\ intervals (unmount polling_world) = []
  /\ (let w := run (mount (Some "k1")) [UrlChange "https://x/a.mp3"; Submit] in
      intervals (step (unmount w)
                   (TranscriptSettles 0 (HttpOk (Json job_queued))))
      = [(next_handle w, (id job_queued, "k1"))]).
Proof.
  split; [vm_compute; reflexivity|].
  split.
  - destruct (unmount_clears_timer polling_world 1%positive
                (reachable_run _ _ (reachable_mount _))) as (Hi & _).
    exact Hi.
  - cbv zeta.
    destruct (unmount_clears_timer
                (run (mount (Some "k1")) [UrlChange "https://x/a.mp3"; Submit])
                1%positive (reachable_run _ _ (reachable_mount _)))
      as (_ & _ & _ & _ & _ & Hlate).
    exact (Hlate 0 (HttpOk (Json job_queued)) transcript_response "k1"
             job_queued eq_refl eq_refl (or_introl eq_refl)).
Defined.

Lemma reachable_exclusive w : reachable w -> exclusive_source (ui w).
Proof.
  intros (stored & es & ->). unfold run.
  generalize (mount stored)
    (or_introl eq_refl : exclusive_source (ui (mount stored))).
  induction es as [|e es IH]; simpl; intros w Hw; [exact Hw|].
  apply IH, step_exclusive, Hw.
Qed.

(** X20.  In every world the event loop reaches, while the form is enabled
    (a key is set and no job is in flight) the URL input and the file input
    are never both disabled: the URL input is disabled exactly when a file
    is selected, the file input exactly when a URL is set, and the two are
    never set together. *)
Theorem inputs_never_both_locked :
  forall w : World,
    reachable w ->
    isFormDisabled (ui w) = false ->
    url_input_disabled (ui w) = has_file (ui w)
    /\ file_input_disabled (ui w) = truthy (audioUrl (ui w))
    /\ (url_input_disabled (ui w) = false
        \/ file_input_disabled (ui w) = false).
Proof.
  intros w Hw Hf. unfold url_input_disabled, file_input_disabled.
  rewrite Hf. cbn [orb]. split; [reflexivity|]. split; [reflexivity|].
  destruct (reachable_exclusive w Hw) as [Hu | Hs].
  - right. rewrite Hu. reflexivity.
  - left. unfold has_file. rewrite Hs. reflexivity.
Qed.

Lemma inputs_never_both_locked_witness :
  let w := run (mount (Some "k1")) [UrlChange "https://x/a.mp3"] in
  isFormDisabled (ui w) = false
  /\ url_input_disabled (ui w) = false
  /\ file_input_disabled (ui w) = true.
Proof.
  cbv zeta.
  destruct (inputs_never_both_locked
              (run (mount (Some "k1")) [UrlChange "https://x/a.mp3"])
              (reachable_run _ _ (reachable_mount _)) eq_refl)
    as (Hu & Hf & _).
  split; [reflexivity|]. split; [exact Hu | exact Hf].
Defined.

(** X21.  A reset cancels no request: what was in flight before it is in
    flight after it.  So a poll still in flight at the reset is applied
    when it is answered: answered with a completed job, it takes the
    controller from idle to [completed] with that job published. *)
Theorem reset_keeps_requests :
  forall (w : World) (r : nat) (o : fetch_outcome Transcript) k job,
    lookup r (in_flight w) = Some (AwaitResult k) ->
    k o = Resolved job ->
    t_status job = TranscriptStatus.completed ->
    let w' := step w Reset in
    in_flight w' = in_flight w
    /\ status (ui w') = Status.idle
    /\ status (ui (step w' (TranscriptSettles r o))) = Status.completed
    /\ transcript (ui (step w' (TranscriptSettles r o))) = Some job.
Proof.
  intros w r o k job Hl Hk Hs. cbv zeta.
  assert (Hf : in_flight (step w Reset) = in_flight w).
  { cbn [step]. unfold resetState, and_then.
    destruct (stop_polling_frame
                (setIsCopied false (setError None (setStatus Status.idle
                  (setTranscript None (setSelectedFile None
                    (setAudioUrl "" w))))))) as (-> & _).
    reflexivity. }
  split; [exact Hf|].
  split; [cbn [step]; rewrite resetState_ui; reflexivity|].
  cbn [step] in Hf |- *. rewrite Hf, Hl.
  split; unfold and_then at 1; rewrite Hk; unfold poll_then; rewrite Hs;
    reflexivity.
Qed.

Lemma reset_keeps_requests_witness :
  let w' := step ticked_world Reset in
  in_flight w' = in_flight ticked_world
  /\ status (ui w') = Status.idle
  /\ status (ui (step w' (TranscriptSettles 1 (HttpOk (Json job_done)))))
     = Status.completed.
Proof.
  destruct (reset_keeps_requests ticked_world 1 (HttpOk (Json job_done))
              transcript_response job_done eq_refl eq_refl eq_refl)
    as (Hf & Hi & Hc & _).
  split; [exact Hf|]. split; [exact Hi | exact Hc].
Defined.
